(** * Memory-layout descriptor ([layout.h]): a shallow embedding

    The C++ class templates [Layout<Ts...>] and [internal_layout::LayoutImpl]
    compute, from a compile-time list of element types and a run-time prefix
    of element counts, the byte offsets of back-to-back arrays.  Everything
    in the header is arithmetic on [size_t]; it is modelled on [Z] with the
    64-bit wrap-around written out (the tests assume an LP64 target:
    [alignof(double) == 8], [sizeof(size_t) == 8]).

    Template arguments become ordinary arguments: the type list is a list
    of element descriptors, an index [N] is a [nat].  A [static_assert]
    that fails is a rejected program, so a member function that carries one
    returns [option], and the class-level assertions are boolean checks
    made by the constructors.  A [const Aligned<T, N>] element, which
    [NotAligned] always rejects, is left out of the element type. *)

From Stdlib Require Import String ZArith List Bool Lia.
Import ListNotations.
Local Open Scope Z_scope.

(** ** [size_t] *)

Module SizeT.

Definition bits : Z := 64.
Definition modulus : Z := 2 ^ bits.
Definition SIZE_MAX : Z := modulus - 1.

(** Conversion to [size_t]: reduction modulo [2^64]. *)
Definition wrap (x : Z) : Z := x mod modulus.

Definition in_range (x : Z) : Prop := 0 <= x < modulus.
Definition in_rangeb (x : Z) : bool := (0 <=? x) && (x <? modulus).

Definition add (a b : Z) : Z := wrap (a + b).
Definition sub (a b : Z) : Z := wrap (a - b).
Definition mul (a b : Z) : Z := wrap (a * b).
(** [~x] on an unsigned 64-bit operand. *)
Definition lnot (x : Z) : Z := wrap (Z.lnot x).
Definition land (a b : Z) : Z := Z.land a b.

End SizeT.

Import SizeT.

(** ** [namespace adl_barrier] *)

Module adl_barrier.

(** [constexpr bool IsPow2(size_t n) { return !(n & (n - 1)); }] *)
Definition IsPow2 (n : Z) : bool := Z.eqb (land n (sub n 1)) 0.

(** [constexpr size_t Align(size_t n, size_t m)
      { return (n + m - 1) & ~(m - 1); }] *)
Definition Align (n m : Z) : Z := land (sub (add n m) 1) (lnot (sub m 1)).

(** [constexpr size_t Min(size_t a, size_t b) { return b < a ? b : a; }]
    It is only applied to template argument counts. *)
Definition Min (a b : nat) : nat := if Nat.ltb b a then b else a.

(** [Max(a)] and [Max(a, b, rest...)]: a left fold keeping the larger of
    the first two arguments. *)
Fixpoint Max (a : Z) (rest : list Z) : Z :=
  match rest with
  | [] => a
  | b :: rest' => Max (if b <? a then a else b) rest'
  end.

End adl_barrier.

Import adl_barrier.

(** ** Element types

    An element of the type list is either a plain type [T] or the tag
    [Aligned<T, N>] (declared, never defined).  Of a C++ type the header
    only inspects [sizeof], [alignof], whether it is a reference, whether it
    is volatile-qualified, and its identity ([std::is_same]). *)

Record CType : Type := mkCType {
  ty_name : string;
  ty_sizeof : Z;
  ty_alignof : Z;
  ty_is_reference : bool;
  ty_is_volatile : bool
}.

Inductive Element : Type :=
| Plain (T : CType)
| Aligned (T : CType) (N : Z).

Definition CType_eqb (a b : CType) : bool :=
  String.eqb (ty_name a) (ty_name b) && (ty_sizeof a =? ty_sizeof b) &&
  (ty_alignof a =? ty_alignof b) &&
  Bool.eqb (ty_is_reference a) (ty_is_reference b) &&
  Bool.eqb (ty_is_volatile a) (ty_is_volatile b).

(** What the language guarantees of [sizeof] and [alignof], and of a
    [size_t] template argument: they are positive, resp. representable. *)
Definition wf_CType (T : CType) : bool :=
  (0 <? ty_sizeof T) && (ty_sizeof T <? modulus) &&
  (0 <? ty_alignof T) && (ty_alignof T <? modulus).

Definition wf_Element (e : Element) : bool :=
  match e with
  | Plain T => wf_CType T
  | Aligned T N => wf_CType T && in_rangeb N
  end.

Module internal_layout.

(** [Type<T>::type]: strips the [Aligned] tag. *)
Definition Type_ (e : Element) : CType :=
  match e with
  | Plain T => T
  | Aligned T _ => T
  end.

(** [SizeOf<T>] and [SizeOf<Aligned<T, N>>]: both [sizeof(T)]. *)
Definition SizeOf (e : Element) : Z :=
  match e with
  | Plain T => ty_sizeof T
  | Aligned T _ => ty_sizeof T
  end.

(** [AlignOf<T>::value]: [alignof(T)], or the override [N]. *)
Definition AlignOf (e : Element) : Z :=
  match e with
  | Plain T => ty_alignof T
  | Aligned T N => N
  end.

(** The [static_assert(N % alignof(T) == 0, ...)] inside
    [AlignOf<Aligned<T, N>>]. *)
Definition AlignOf_static_assert (e : Element) : bool :=
  match e with
  | Plain _ => true
  | Aligned T N => N mod ty_alignof T =? 0
  end.

Definition is_reference_v (e : Element) : bool :=
  match e with
  | Plain T => ty_is_reference T
  | Aligned _ _ => false
  end.

Definition is_volatile_v (e : Element) : bool :=
  match e with
  | Plain T => ty_is_volatile T
  | Aligned _ _ => false
  end.

(** [IsLegalElementType<T>]. *)
Definition IsLegalElementType (e : Element) : bool :=
  negb (is_reference_v e) && negb (is_volatile_v e) &&
  negb (ty_is_reference (Type_ e)) && negb (ty_is_volatile (Type_ e)) &&
  IsPow2 (AlignOf e).

(** An element type gets through the compiler when instantiating
    [AlignOf] does not trip its assertion and [IsLegalElementType] holds. *)
Definition element_accepted (e : Element) : bool :=
  AlignOf_static_assert e && IsLegalElementType e.

(** [Find(Needle, Ts...)]: index of the needle; the overload whose first
    two argument types coincide asserts that the needle does not occur
    again.  No overload applies to an empty tail. *)
Fixpoint Find (needle : CType) (ts : list CType) : option nat :=
  match ts with
  | [] => None
  | t :: rest =>
      if CType_eqb needle t
      then if existsb (CType_eqb needle) rest then None else Some O
      else option_map S (Find needle rest)
  end.

(** An object of class [LayoutImpl<std::tuple<Elements...>,
    std::index_sequence<SizeSeq...>, std::index_sequence<OffsetSeq...>>]:
    the three template arguments (the index sequences matter through their
    lengths) and the data member [size_]. *)
Record LayoutImpl : Type := mkLayoutImpl {
  Elements : list Element;
  NumSizes : nat;
  NumOffsets : nat;
  size_ : list Z
}.

Definition NumTypes (L : LayoutImpl) : nat := length (Elements L).

(** The class-level [static_assert]s of [LayoutImpl]. *)
Definition LayoutImpl_static_asserts
    (elements : list Element) (numSizes numOffsets : nat) : bool :=
  Nat.ltb 0 (length elements) &&
  forallb element_accepted elements &&
  Nat.eqb numOffsets (Min (length elements) (numSizes + 1)) &&
  Nat.ltb 0 (length elements).

(** [constexpr explicit LayoutImpl(IntToSize<SizeSeq>... sizes)
      : size_{sizes...} {}]: exactly [NumSizes] arguments, each of type
    [size_t].  [Layout::Partial] and the constructor of [Layout] forward
    whatever integers they are given, so every argument is converted to
    [size_t] on the way in. *)
Definition LayoutImpl_ctor
    (elements : list Element) (numSizes numOffsets : nat) (sizes : list Z)
  : option LayoutImpl :=
  if LayoutImpl_static_asserts elements numSizes numOffsets &&
     Nat.eqb (length sizes) numSizes
  then Some (mkLayoutImpl elements numSizes numOffsets (map wrap sizes))
  else None.

(** [ElementAlignment<N>::value] *)
Definition ElementAlignment (L : LayoutImpl) (N : nat) : option Z :=
  option_map AlignOf (nth_error (Elements L) N).

(** [ElementType<N>] *)
Definition ElementType (L : LayoutImpl) (N : nat) : option CType :=
  option_map Type_ (nth_error (Elements L) N).

(** [ElementIndex<T>()] *)
Definition ElementIndex (L : LayoutImpl) (T : CType) : option nat :=
  let ts := map Type_ (Elements L) in
  if existsb (CType_eqb T) ts then Find T ts else None.

(** [static constexpr size_t Alignment()] *)
Definition Alignment (L : LayoutImpl) : option Z :=
  match map AlignOf (Elements L) with
  | [] => None
  | a :: rest => Some (Max a rest)
  end.

(** [Offset<N>()]: the two overloads selected by [N == 0] and [N != 0]. *)
Fixpoint Offset (L : LayoutImpl) (N : nat) : option Z :=
  match N with
  | O => Some 0
  | S N' =>
      if Nat.ltb (S N') (NumOffsets L) then
        match Offset L N', ElementType L N', nth_error (size_ L) N',
              ElementAlignment L (S N') with
        | Some o, Some T, Some c, Some a =>
            Some (Align (add o (mul (ty_sizeof T) c)) a)
        | _, _, _, _ => None
        end
      else None
  end.

(** [Offset<T>()] *)
Definition Offset_of_type (L : LayoutImpl) (T : CType) : option Z :=
  match ElementIndex L T with
  | Some N => Offset L N
  | None => None
  end.

(** Evaluation of a pack expansion: all members or nothing. *)
Fixpoint expand {A : Type} (f : nat -> option A) (idx : list nat)
  : option (list A) :=
  match idx with
  | [] => Some []
  | i :: rest =>
      match f i, expand f rest with
      | Some x, Some xs => Some (x :: xs)
      | _, _ => None
      end
  end.

(** [Offsets()] *)
Definition Offsets (L : LayoutImpl) : option (list Z) :=
  expand (Offset L) (seq 0 (NumOffsets L)).

(** [Size<N>()] *)
Definition Size (L : LayoutImpl) (N : nat) : option Z :=
  if Nat.ltb N (NumSizes L) then nth_error (size_ L) N else None.

(** [Sizes()] *)
Definition Sizes (L : LayoutImpl) : option (list Z) :=
  expand (Size L) (seq 0 (NumSizes L)).

(** [Pointer<N>(p)]: the [assert] on the alignment of [p], then
    [p + Offset<N>()].  Pointer arithmetic is defined only inside the block
    that [p] points to, so addresses are unbounded integers here: the
    result is the machine's 64-bit address whenever [p >= 0] and
    [p + Offset<N>()] is representable, and the statements about
    addresses below assume that. *)
Definition Pointer (L : LayoutImpl) (N : nat) (p : Z) : option Z :=
  match Alignment L, Offset L N with
  | Some alignment, Some o =>
      if negb (alignment =? 0) && (p mod alignment =? 0)
      then Some (p + o) else None
  | _, _ => None
  end.

(** [Slice<N>(p)]: pointer and length. *)
Definition Slice (L : LayoutImpl) (N : nat) (p : Z) : option (Z * Z) :=
  match Pointer L N p, Size L N with
  | Some q, Some n => Some (q, n)
  | _, _ => None
  end.

(** [AllocSize()] *)
Definition AllocSize (L : LayoutImpl) : option Z :=
  if Nat.eqb (NumTypes L) (NumSizes L) then
    match Offset L (NumTypes L - 1), ElementType L (NumTypes L - 1),
          nth_error (size_ L) (NumTypes L - 1) with
    | Some o, Some T, Some c => Some (add o (mul (ty_sizeof T) c))
    | _, _, _ => None
    end
  else None.

(** [LayoutType<NumSizes, Ts...>]: the [LayoutImpl] instantiation with
    [Min(sizeof...(Ts), NumSizes + 1)] offsets. *)
Definition LayoutType (numSizes : nat) (Ts : list Element) (sizes : list Z)
  : option LayoutImpl :=
  LayoutImpl_ctor Ts numSizes (Min (length Ts) (numSizes + 1)) sizes.

End internal_layout.

Import internal_layout.

(** ** [class Layout<Ts...>] *)

(** The [static_assert]s of [Layout] itself, and those of its base class
    [LayoutType<sizeof...(Ts), Ts...>]. *)
Definition Layout_static_asserts (Ts : list Element) : bool :=
  Nat.ltb 0 (length Ts) && forallb element_accepted Ts &&
  LayoutImpl_static_asserts Ts (length Ts)
    (Min (length Ts) (length Ts + 1)).

(** [Layout<Ts...>::Partial(sizes...)] *)
Definition Partial (Ts : list Element) (sizes : list Z) : option LayoutImpl :=
  if Layout_static_asserts Ts && Nat.leb (length sizes) (length Ts)
  then LayoutType (length sizes) Ts sizes
  else None.

(** [Layout<Ts...>::Layout(sizes...)]: one count per element type. *)
Definition Layout (Ts : list Element) (sizes : list Z) : option LayoutImpl :=
  if Layout_static_asserts Ts && Nat.eqb (length sizes) (length Ts)
  then LayoutType (length Ts) Ts sizes
  else None.

(** ** The operations as a command interface

    Every member function of [LayoutImpl] is [const] (or [static]): running
    one yields a result and leaves the object as it was. *)

Inductive Query : Type :=
| QAlignment
| QOffset (N : nat)
| QOffsetOfType (T : CType)
| QOffsets
| QSize (N : nat)
| QSizes
| QPointer (N : nat) (p : Z)
| QSlice (N : nat) (p : Z)
| QAllocSize.

Inductive Answer : Type :=
| ANum (r : option Z)
| ANums (r : option (list Z))
| APair (r : option (Z * Z)).

Definition run (q : Query) (L : LayoutImpl) : Answer * LayoutImpl :=
  match q with
  | QAlignment => (ANum (Alignment L), L)
  | QOffset N => (ANum (Offset L N), L)
  | QOffsetOfType T => (ANum (Offset_of_type L T), L)
  | QOffsets => (ANums (Offsets L), L)
  | QSize N => (ANum (Size L N), L)
  | QSizes => (ANums (Sizes L), L)
  | QPointer N p => (ANum (Pointer L N p), L)
  | QSlice N p => (APair (Slice L N p), L)
  | QAllocSize => (ANum (AllocSize L), L)
  end.

Fixpoint run_all (qs : list Query) (L : LayoutImpl) : LayoutImpl :=
  match qs with
  | [] => L
  | q :: rest => run_all rest (snd (run q L))
  end.

(** ** Reference notions used by the specification *)

(** [ceil(x / a)] for a positive divisor. *)
Definition ceil_div (x a : Z) : Z :=
  if x mod a =? 0 then x / a else x / a + 1.

(** The specification's [Align(x, a) = ceil(x/a) * a], on unbounded
    integers. *)
Definition Align_spec (x a : Z) : Z := ceil_div x a * a.

(** A genuine power of two that fits in [size_t]. *)
Definition is_pow2 (a : Z) : Prop := exists k, 0 <= k < bits /\ a = 2 ^ k.

(** The specification's condition on an override: a power of two, at least
    the natural alignment. *)
Definition valid_override (T : CType) (A : Z) : Prop :=
  is_pow2 A /\ ty_alignof T <= A.

(** The element types are well-typed and none has alignment zero. *)
Definition valid_types (Ts : list Element) : bool :=
  forallb wf_Element Ts && forallb (fun e => negb (AlignOf e =? 0)) Ts.

Definition valid_counts (sizes : list Z) : bool := forallb in_rangeb sizes.

Definition size_at (Ts : list Element) (i : nat) : Z :=
  match nth_error Ts i with Some e => SizeOf e | None => 0 end.

Definition alignment_at (Ts : list Element) (i : nat) : Z :=
  match nth_error Ts i with Some e => AlignOf e | None => 1 end.

Definition count_at (sizes : list Z) (i : nat) : Z :=
  match nth_error sizes i with Some c => c | None => 0 end.

(** The specification's offsets, on unbounded integers:
    [Offset(0) = 0] and
    [Offset(i) = Align(Offset(i-1) + size(i-1) * count(i-1), alignment(i))]. *)
Fixpoint Offset_spec (Ts : list Element) (sizes : list Z) (i : nat) : Z :=
  match i with
  | O => 0
  | S j =>
      Align_spec (Offset_spec Ts sizes j + size_at Ts j * count_at sizes j)
                 (alignment_at Ts (S j))
  end.

(** The exact layout up to the start of array [i] is representable. *)
Definition fits (Ts : list Element) (sizes : list Z) (i : nat) : Prop :=
  Offset_spec Ts sizes i < modulus.

(** Computing [Offset<k>()] from [Offset<k-1>()] does not overflow: the end
    of array [k-1], plus [alignment(k) - 1], is representable. *)
Definition no_overflow_at (Ts : list Element) (sizes : list Z)
    (L : LayoutImpl) (k : nat) : Prop :=
  forall o,
    Offset L (k - 1) = Some o ->
    o + size_at Ts (k - 1) * count_at sizes (k - 1) + alignment_at Ts k - 1
    < modulus.

(** ** The types of the test programs (LP64) *)

Definition c_char : CType := mkCType "char" 1 1 false false.
Definition c_int : CType := mkCType "int" 4 4 false false.
Definition c_float : CType := mkCType "float" 4 4 false false.
Definition c_double : CType := mkCType "double" 8 8 false false.
Definition c_size_t : CType := mkCType "size_t" 8 8 false false.

(** The layouts of [test_alignment.cpp] and of the header's comments:
    [Layout<char, int, double>(3, 2, 4)],
    [Layout<char, Aligned<int, 32>, double>(3, 2, 4)] and
    [LayoutImpl<std::tuple<double, float, int, char>, ...>(4, 3)] with two
    counts known. *)
Definition Ts_auto : list Element :=
  [Plain c_char; Plain c_int; Plain c_double].
Definition sizes_auto : list Z := [3; 2; 4].
Definition L_auto : LayoutImpl := mkLayoutImpl Ts_auto 3 3 sizes_auto.

Definition Ts_custom : list Element :=
  [Plain c_char; Aligned c_int 32; Plain c_double].
Definition L_custom : LayoutImpl := mkLayoutImpl Ts_custom 3 3 sizes_auto.

Definition Ts_tutorial : list Element :=
  [Plain c_double; Plain c_float; Plain c_int; Plain c_char].
Definition sizes_tutorial2 : list Z := [4; 3].
Definition sizes_tutorial4 : list Z := [4; 3; 2; 1].
Definition L_tutorial2 : LayoutImpl :=
  mkLayoutImpl Ts_tutorial 2 3 sizes_tutorial2.
Definition L_tutorial4 : LayoutImpl :=
  mkLayoutImpl Ts_tutorial 4 4 sizes_tutorial4.

(** Byte [b] lies in array [i], whose count is known. *)
Definition in_array (Ts : list Element) (sizes : list Z) (L : LayoutImpl)
    (i : nat) (b : Z) : Prop :=
  exists o, Offset L i = Some o /\
            o <= b < o + size_at Ts i * count_at sizes i.

(** ** Three statements of the specification, read on unbounded integers

    They are stated here once, as written, to be compared with what the
    64-bit code computes. *)

(** [Offset(i) = Align(Offset(i-1) + size(i-1) * count(i-1), alignment(i))]
    with [Align(x, a) = ceil(x/a) * a]. *)
Definition Offset_recurrence_exact : Prop :=
  forall Ts sizes L i,
    valid_types Ts = true -> valid_counts sizes = true ->
    Partial Ts sizes = Some L -> (0 < i < NumOffsets L)%nat ->
    exists o,
      Offset L (i - 1) = Some o /\
      Offset L i =
      Some (Align_spec (o + size_at Ts (i - 1) * count_at sizes (i - 1))
                       (alignment_at Ts i)).

(** [AllocSize = Offset(N-1) + size(N-1) * count(N-1)], the end of the
    last array. *)
Definition AllocSize_exact : Prop :=
  forall Ts sizes L,
    valid_types Ts = true -> valid_counts sizes = true ->
    Layout Ts sizes = Some L ->
    exists o,
      Offset L (length Ts - 1) = Some o /\
      AllocSize L =
      Some (o + size_at Ts (length Ts - 1) * count_at sizes (length Ts - 1)).

(** [Offset(i) >= Offset(i-1) + size(i-1) * count(i-1)]. *)
Definition Offsets_ordered_always : Prop :=
  forall Ts sizes L i,
    valid_types Ts = true -> valid_counts sizes = true ->
    Partial Ts sizes = Some L -> (0 < i < NumOffsets L)%nat ->
    exists o o',
      Offset L (i - 1) = Some o /\ Offset L i = Some o' /\
      o + size_at Ts (i - 1) * count_at sizes (i - 1) <= o'.

(** ** Further members of [LayoutImpl] *)

(** [Pointer<T>(p)], [Size<T>()] and [Slice<T>(p)]: the member with the
    index [ElementIndex<T>()]. *)
Definition Pointer_of_type (L : LayoutImpl) (T : CType) (p : Z) : option Z :=
  match ElementIndex L T with
  | Some N => Pointer L N p
  | None => None
  end.

Definition Size_of_type (L : LayoutImpl) (T : CType) : option Z :=
  match ElementIndex L T with
  | Some N => Size L N
  | None => None
  end.

Definition Slice_of_type (L : LayoutImpl) (T : CType) (p : Z)
  : option (Z * Z) :=
  match ElementIndex L T with
  | Some N => Slice L N p
  | None => None
  end.

(** [Pointers(p)]: [Pointer<OffsetSeq>(p)...] *)
Definition Pointers (L : LayoutImpl) (p : Z) : option (list Z) :=
  expand (fun N => Pointer L N p) (seq 0 (NumOffsets L)).

(** [Slices(p)]: [Slice<SizeSeq>(p)...] *)
Definition Slices (L : LayoutImpl) (p : Z) : option (list (Z * Z)) :=
  expand (fun N => Slice L N p) (seq 0 (NumSizes L)).

(** [PoisonPadding<Char, N>(p)] in a build with [ADDRESS_SANITIZER]: the
    calls [ASAN_POISON_MEMORY_REGION(addr, size)] it makes, in order.  The
    overload for [N == 0] only checks [p] through [Pointer<0>(p)]; the one
    for [N != 0] recurses on [N - 1] and then poisons the gap before array
    [N] unless [ElementAlignment<N - 1>::value % ElementAlignment<N>::value]
    is zero.  A zero divisor there has no defined result. *)
Fixpoint PoisonPadding (L : LayoutImpl) (N : nat) (p : Z)
  : option (list (Z * Z)) :=
  match N with
  | O => match Pointer L 0 p with Some _ => Some [] | None => None end
  | S N' =>
      if Nat.ltb (S N') (NumOffsets L) then
        match PoisonPadding L N' p,
              ElementAlignment L N', ElementAlignment L (S N'),
              Offset L N', ElementType L N', nth_error (size_ L) N',
              Offset L (S N') with
        | Some calls, Some a', Some a, Some o', Some T, Some c, Some o =>
            if a =? 0 then None
            else if negb (a' mod a =? 0) then
              let start := add o' (mul (ty_sizeof T) c) in
              Some (calls ++ [(p + start, sub o start)])
            else Some calls
        | _, _, _, _, _, _, _ => None
        end
      else None
  end.

(** The default template argument [N = NumOffsets - 1]. *)
Definition PoisonPadding_all (L : LayoutImpl) (p : Z)
  : option (list (Z * Z)) :=
  PoisonPadding L (NumOffsets L - 1) p.

(** The buffer address and the addresses of all computable arrays are
    representable 64-bit addresses. *)
Definition addresses_representable (L : LayoutImpl) (p : Z) : bool :=
  (0 <=? p) &&
  forallb (fun N => match Offset L N with
                    | Some o => p + o <? modulus
                    | None => true
                    end)
          (seq 0 (NumOffsets L)).

(** ** Quantities of the exact layout *)

(** Bytes taken by the arrays before array [i], padding not counted. *)
Fixpoint payload (Ts : list Element) (sizes : list Z) (i : nat) : Z :=
  match i with
  | O => 0
  | S j => payload Ts sizes j + size_at Ts j * count_at sizes j
  end.

(** End of array [i] in the exact layout. *)
Definition end_spec (Ts : list Element) (sizes : list Z) (i : nat) : Z :=
  Offset_spec Ts sizes i + size_at Ts i * count_at sizes i.

(** The gap in front of array [N] of the exact layout, in a buffer at
    address [p]: where it starts and how long it is. *)
Definition gap_before (Ts : list Element) (sizes : list Z) (p : Z) (N : nat)
  : Z * Z :=
  (p + end_spec Ts sizes (N - 1),
   Offset_spec Ts sizes N - end_spec Ts sizes (N - 1)).

(** The header's efficiency tip: alignments do not grow along the list. *)
Fixpoint nonincreasing (l : list Z) : bool :=
  match l with
  | a :: (b :: _) as rest => (b <=? a) && nonincreasing rest
  | _ => true
  end.

(** Each element size is a multiple of the alignment of its array, as
    [sizeof(T)] is of [alignof(T)] for every plain type. *)
Definition sizes_aligned (Ts : list Element) : bool :=
  forallb (fun e => SizeOf e mod AlignOf e =? 0) Ts.

(** ** [test_serialize.cpp]: a record that carries its own lengths

    [create] lays out [size_t[1], size_t[1], float[n], double[m]] in one
    block, stores [n] and [m] in the first two arrays and copies the
    payload; [use] reads the two lengths back through a partial layout and
    then locates the payload through the full one.  Memory is a map from
    addresses to bytes and is passed explicitly; the block returned by the
    allocator is the argument [p]; a source array is given by its bytes;
    what [use] prints is returned as the list of element representations
    it reads. *)

Module Serialize.

Definition Mem : Type := Z -> Byte.byte.

Definition byte_of_Z (z : Z) : Byte.byte :=
  match Byte.of_N (Z.to_N (z mod 256)) with
  | Some b => b
  | None => Byte.x00
  end.

Definition Z_of_byte (b : Byte.byte) : Z := Z.of_N (Byte.to_N b).

(** Object representation of an unsigned integer: little-endian. *)
Fixpoint encode_le (n : nat) (x : Z) : list Byte.byte :=
  match n with
  | O => []
  | S n' => byte_of_Z x :: encode_le n' (x / 256)
  end.

Fixpoint decode_le (bs : list Byte.byte) : Z :=
  match bs with
  | [] => 0
  | b :: rest => Z_of_byte b + 256 * decode_le rest
  end.

Definition store_bytes (m : Mem) (a : Z) (bs : list Byte.byte) : Mem :=
  fun x =>
    if (a <=? x) && (x <? a + Z.of_nat (length bs))
    then nth (Z.to_nat (x - a)) bs Byte.x00
    else m x.

Definition load_bytes (m : Mem) (a : Z) (n : nat) : list Byte.byte :=
  map (fun i => m (a + Z.of_nat i)) (seq 0 n).

(** [*q = x] and [*q] for a [size_t* q]. *)
Definition store_size_t (m : Mem) (q x : Z) : Mem :=
  store_bytes m q (encode_le 8 x).

Definition load_size_t (m : Mem) (q : Z) : Z := decode_le (load_bytes m q 8).

(** [memcpy(dst, src, n)], the source given by its contents. *)
Definition memcpy (m : Mem) (dst : Z) (src : list Byte.byte) (n : Z) : Mem :=
  store_bytes m dst (firstn (Z.to_nat n) src).

(** [using L = Layout<size_t, size_t, float, double>] *)
Definition L : list Element :=
  [Plain c_size_t; Plain c_size_t; Plain c_float; Plain c_double].

(** [create(floats, num_floats, doubles, num_doubles)], where [p] is the
    block obtained from [aligned_alloc_posix(L::Alignment(),
    layout.AllocSize())]. *)
Definition create (m : Mem) (p : Z)
    (floats : list Byte.byte) (num_floats : Z)
    (doubles : list Byte.byte) (num_doubles : Z) : option Mem :=
  match Layout L [1; 1; num_floats; num_doubles] with
  | None => None
  | Some layout =>
      match Alignment layout, AllocSize layout,
            Pointer layout 0 p, Pointer layout 1 p,
            Pointer_of_type layout c_float p,
            Pointer_of_type layout c_double p with
      | Some _, Some _, Some p0, Some p1, Some pf, Some pd =>
          let m1 := store_size_t m p0 num_floats in
          let m2 := store_size_t m1 p1 num_doubles in
          let m3 := memcpy m2 pf floats
                      (mul (ty_sizeof c_float) num_floats) in
          Some (memcpy m3 pd doubles (mul (ty_sizeof c_double) num_doubles))
      | _, _, _, _, _, _ => None
      end
  end.

(** [use(p)]: the elements [floats[0..num_floats)] and
    [doubles[0..num_doubles)] it reads, in order. *)
Definition use (m : Mem) (p : Z)
  : option (list (list Byte.byte) * list (list Byte.byte)) :=
  match Partial L [1; 1] with
  | None => None
  | Some partial =>
      match Pointer partial 0 p, Pointer partial 1 p with
      | Some p0, Some p1 =>
          let num_floats := load_size_t m p0 in
          let num_doubles := load_size_t m p1 in
          match Layout L [1; 1; num_floats; num_doubles] with
          | None => None
          | Some layout =>
              match Pointer layout 2 p, Pointer layout 3 p with
              | Some floats, Some doubles =>
                  Some
                    (map (fun i =>
                            load_bytes m
                              (floats + ty_sizeof c_float * Z.of_nat i)
                              (Z.to_nat (ty_sizeof c_float)))
                         (seq 0 (Z.to_nat num_floats)),
                     map (fun i =>
                            load_bytes m
                              (doubles + ty_sizeof c_double * Z.of_nat i)
                              (Z.to_nat (ty_sizeof c_double)))
                         (seq 0 (Z.to_nat num_doubles)))
              | _, _ => None
              end
          end
      | _, _ => None
      end
  end.

(** The [i]-th element of an array given by its bytes. *)
Definition element (sz : Z) (bytes : list Byte.byte) (i : nat)
  : list Byte.byte :=
  firstn (Z.to_nat sz) (skipn (Z.to_nat sz * i) bytes).

Definition elements (sz : Z) (bytes : list Byte.byte) (n : Z)
  : list (list Byte.byte) :=
  map (element sz bytes) (seq 0 (Z.to_nat n)).

(** The arrays of [main]: [{1.1, 2.2, 3.3}] and [{4.4, 5.5, 6.6, 7.7}] in
    their IEEE 754 representations. *)
Definition main_floats : list Byte.byte :=
  encode_le 4 0x3F8CCCCD ++ encode_le 4 0x400CCCCD ++ encode_le 4 0x40533333.

Definition main_doubles : list Byte.byte :=
  encode_le 8 0x401199999999999A ++ encode_le 8 0x4016000000000000 ++
  encode_le 8 0x401A666666666666 ++ encode_le 8 0x401ECCCCCCCCCCCD.

Definition zero_memory : Mem := fun _ => Byte.x00.

End Serialize.

(** ** Arithmetic facts about [size_t] *)

Lemma modulus_pos : 0 < modulus.
Proof. reflexivity. Qed.

Lemma modulus_val : modulus = 18446744073709551616.
Proof. reflexivity. Qed.

Lemma wrap_range x : in_range (wrap x).
Proof. unfold in_range, wrap. apply Z.mod_pos_bound, modulus_pos. Qed.

Lemma wrap_small x : in_range x -> wrap x = x.
Proof. unfold in_range, wrap. intros H. now apply Z.mod_small. Qed.

Lemma in_rangeb_spec x : in_rangeb x = true <-> in_range x.
Proof. unfold in_rangeb, in_range. rewrite andb_true_iff. lia. Qed.

Lemma sub_add_1 n m : sub (add n m) 1 = wrap (n + m - 1).
Proof.
  unfold sub, add, wrap.
  now rewrite Zminus_mod_idemp_l.
Qed.

Lemma mul_wrap_r a b : mul a (wrap b) = mul a b.
Proof. unfold mul, wrap. apply Z.mul_mod_idemp_r. discriminate. Qed.

Lemma map_wrap_valid sizes :
  valid_counts sizes = true -> map wrap sizes = sizes.
Proof.
  unfold valid_counts. induction sizes as [| c sizes IH]; cbn; [trivial |].
  rewrite andb_true_iff. intros [Hc Hs].
  rewrite IH by assumption. f_equal. now apply wrap_small, in_rangeb_spec.
Qed.

Lemma testbit_in_range_high x i :
  in_range x -> bits <= i -> Z.testbit x i = false.
Proof.
  intros Hx Hi. rewrite <- (wrap_small x Hx). unfold wrap, modulus.
  apply Z.mod_pow2_bits_high. unfold bits in *. lia.
Qed.

(** The mask [~(2^k - 1)] keeps exactly the bits [k .. 63]. *)
Lemma testbit_mask k i :
  0 <= k -> 0 <= i ->
  Z.testbit (lnot (sub (2 ^ k) 1)) i = (i <? bits) && (k <=? i).
Proof.
  intros Hk Hi. unfold lnot, sub, wrap, modulus.
  replace (2 ^ k - 1) with (Z.ones k) by (rewrite Z.ones_equiv; lia).
  destruct (Z.ltb_spec i bits) as [Hlt | Hge]; cbn [andb].
  - rewrite Z.mod_pow2_bits_low by lia.
    rewrite Z.lnot_spec by lia.
    rewrite Z.mod_pow2_bits_low by lia.
    destruct (Z.leb_spec k i).
    + rewrite Z.ones_spec_high by lia. reflexivity.
    + rewrite Z.ones_spec_low by lia. reflexivity.
  - apply Z.mod_pow2_bits_high. unfold bits in *. lia.
Qed.

(** Masking with [~(m - 1)] rounds down to a multiple of [m = 2^k]. *)
Lemma land_mask_round_down x k :
  in_range x -> 0 <= k ->
  land x (lnot (sub (2 ^ k) 1)) = x / 2 ^ k * 2 ^ k.
Proof.
  intros Hx Hk. unfold land.
  rewrite <- Z.shiftr_div_pow2, <- Z.shiftl_mul_pow2 by lia.
  apply Z.bits_inj'. intros i Hi.
  rewrite Z.land_spec, testbit_mask by lia.
  destruct (Z.leb_spec k i) as [Hki | Hik].
  - rewrite Z.shiftl_spec, Z.shiftr_spec by lia.
    replace (i - k + k) with i by lia.
    destruct (Z.ltb_spec i bits); cbn [andb].
    + now rewrite andb_true_r.
    + rewrite andb_false_r. symmetry. now apply testbit_in_range_high.
  - rewrite andb_false_r, andb_false_r.
    rewrite Z.shiftl_spec_low by lia. reflexivity.
Qed.

(** What the bit trick of [Align] computes, for every [n] and every power
    of two [m]: the wrapped sum rounded down to a multiple of [m]. *)
Lemma Align_round_down n k :
  0 <= k ->
  Align n (2 ^ k) = wrap (n + 2 ^ k - 1) / 2 ^ k * 2 ^ k.
Proof.
  intros Hk. unfold Align. rewrite sub_add_1.
  apply land_mask_round_down; [apply wrap_range | assumption].
Qed.

(** ** [Align] against the specification's rounding *)

Lemma pow2_pos k : 0 <= k -> 0 < 2 ^ k.
Proof. intros. apply Z.pow_pos_nonneg; lia. Qed.

Lemma Align_spec_bounds x a : 0 < a -> x <= Align_spec x a < x + a.
Proof.
  intros Ha. unfold Align_spec, ceil_div.
  destruct (Z.eqb_spec (x mod a) 0) as [E | E];
    Z.div_mod_to_equations; nia.
Qed.

Lemma Align_spec_multiple x a : 0 < a -> Align_spec x a mod a = 0.
Proof. intros Ha. unfold Align_spec. apply Z.mod_mul. lia. Qed.

Lemma Align_spec_least x a q : 0 < a -> x <= q * a -> Align_spec x a <= q * a.
Proof.
  intros Ha Hq. pose proof (Align_spec_bounds x a Ha) as Hb.
  unfold Align_spec in *. set (c := ceil_div x a) in *.
  assert (c < q + 1) by (apply (Z.mul_lt_mono_pos_r a); lia).
  apply Z.mul_le_mono_nonneg_r; lia.
Qed.

Lemma Align_spec_round_down x a :
  0 < a -> Align_spec x a = (x + a - 1) / a * a.
Proof.
  intros Ha. unfold Align_spec, ceil_div. f_equal.
  pose proof (Z.div_mod x a ltac:(lia)) as Hdm.
  pose proof (Z.mod_pos_bound x a Ha) as Hr.
  destruct (Z.eqb_spec (x mod a) 0) as [E | E].
  - apply (Z.div_unique _ _ _ (a - 1)); lia.
  - apply (Z.div_unique _ _ _ (x mod a - 1)); lia.
Qed.

Lemma Align_exact n k :
  in_range n -> 0 <= k -> n + 2 ^ k - 1 < modulus ->
  Align n (2 ^ k) = Align_spec n (2 ^ k).
Proof.
  intros Hn Hk Hfit. pose proof (pow2_pos k Hk) as Hm.
  rewrite Align_round_down by assumption.
  rewrite wrap_small by (unfold in_range in *; lia).
  symmetry. now apply Align_spec_round_down.
Qed.

Lemma modulus_multiple k :
  0 <= k < bits -> modulus = 2 ^ (bits - k) * 2 ^ k.
Proof.
  intros Hk. unfold modulus. rewrite <- Z.pow_add_r by lia.
  f_equal. lia.
Qed.

Lemma Align_wraps n k :
  in_range n -> 0 <= k < bits ->
  Align n (2 ^ k) = wrap (Align_spec n (2 ^ k)).
Proof.
  intros Hn Hk. assert (Hm : 0 < 2 ^ k) by (apply pow2_pos; lia).
  pose proof (Align_spec_bounds n (2 ^ k) Hm) as Hb.
  destruct (Z_lt_ge_dec (n + 2 ^ k - 1) modulus) as [Hfit | Hover].
  - rewrite Align_exact by (assumption || lia).
    symmetry. apply wrap_small. unfold in_range in *. lia.
  - rewrite Align_round_down by lia.
    pose proof (modulus_multiple k Hk) as HM.
    assert (HE : Align_spec n (2 ^ k) = modulus).
    { unfold Align_spec in *. set (q := ceil_div n (2 ^ k)) in *.
      set (m := 2 ^ k) in *. set (M := 2 ^ (bits - k)) in *.
      unfold in_range in Hn. rewrite HM in *.
      assert (q = M) by nia. subst q. congruence. }
    rewrite HE. unfold wrap at 2. rewrite Z.mod_same by (unfold modulus; lia).
    assert (Hw : wrap (n + 2 ^ k - 1) = n + 2 ^ k - 1 - modulus).
    { unfold wrap. symmetry. apply (Z.mod_unique _ _ 1).
      - left. unfold in_range in Hn. assert (2 ^ k <= modulus) by nia. lia.
      - lia. }
    rewrite Hw. rewrite Z.div_small; [reflexivity |].
    unfold in_range in Hn. lia.
Qed.

Lemma Align_multiple n k : 0 <= k -> Align n (2 ^ k) mod 2 ^ k = 0.
Proof.
  intros Hk. rewrite Align_round_down by assumption.
  apply Z.mod_mul. pose proof (pow2_pos k Hk). lia.
Qed.

Lemma Align_in_range n k : 0 <= k -> in_range (Align n (2 ^ k)).
Proof.
  intros Hk. rewrite Align_round_down by assumption.
  pose proof (pow2_pos k Hk) as Hm.
  pose proof (wrap_range (n + 2 ^ k - 1)) as Hw. unfold in_range in *.
  set (w := wrap (n + 2 ^ k - 1)) in *.
  pose proof (Z.mul_div_le w (2 ^ k) Hm).
  assert (0 <= w / 2 ^ k) by (apply Z.div_pos; lia).
  nia.
Qed.

(** ** [IsPow2] *)

Lemma IsPow2_pow2 k : 0 <= k < bits -> IsPow2 (2 ^ k) = true.
Proof.
  intros Hk. unfold IsPow2, land, sub.
  assert (Hm : 0 < 2 ^ k) by (apply pow2_pos; lia).
  assert (2 ^ k < modulus).
  { unfold modulus. apply Z.pow_lt_mono_r; lia. }
  rewrite wrap_small by (unfold in_range; lia).
  replace (2 ^ k - 1) with (Z.ones k) by (rewrite Z.ones_equiv; lia).
  rewrite Z.land_ones by lia. rewrite Z.mod_same by lia. reflexivity.
Qed.

Lemma IsPow2_zero : IsPow2 0 = true.
Proof. reflexivity. Qed.

Lemma IsPow2_inv a :
  in_range a -> IsPow2 a = true -> a <> 0 -> is_pow2 a.
Proof.
  unfold IsPow2, land, sub. intros Ha Hp Hnz.
  apply Z.eqb_eq in Hp.
  assert (Hpos : 0 < a) by (unfold in_range in Ha; lia).
  rewrite wrap_small in Hp by (unfold in_range in *; lia).
  pose proof (Z.log2_spec a Hpos) as Hlog.
  pose proof (Z.log2_nonneg a) as Hl0.
  exists (Z.log2 a). split.
  - split; [assumption |].
    apply Z.log2_lt_pow2; [assumption | apply Ha].
  - destruct (Z.eq_dec a (2 ^ Z.log2 a)) as [E | NE]; [exact E | exfalso].
    assert (Hlog' : Z.log2 (a - 1) = Z.log2 a).
    { apply Z.log2_unique; lia. }
    assert (Hb : Z.testbit (Z.land a (a - 1)) (Z.log2 a) = true).
    { rewrite Z.land_spec, Z.bit_log2 by lia.
      rewrite <- Hlog'. rewrite Z.bit_log2 by lia. reflexivity. }
    rewrite Hp in Hb. rewrite Z.bits_0 in Hb. discriminate.
Qed.

(** ** Element types that get through the compiler *)

Lemma SizeOf_Type e : ty_sizeof (Type_ e) = SizeOf e.
Proof. now destruct e. Qed.

Lemma wf_Element_AlignOf_range e :
  wf_Element e = true -> in_range (AlignOf e).
Proof.
  destruct e as [T | T N]; cbn; unfold wf_CType.
  - rewrite !andb_true_iff. intros [[[_ _] H1] H2].
    apply Z.ltb_lt in H1, H2. unfold in_range. lia.
  - rewrite !andb_true_iff. intros [_ H]. now apply in_rangeb_spec.
Qed.

Lemma wf_Element_SizeOf_range e :
  wf_Element e = true -> 0 < SizeOf e < modulus.
Proof.
  assert (H : forall T, wf_CType T = true -> 0 < ty_sizeof T < modulus).
  { intros T. unfold wf_CType. rewrite !andb_true_iff.
    intros [[[H1 H2] _] _]. apply Z.ltb_lt in H1, H2. lia. }
  destruct e as [T | T N]; cbn; [apply H |].
  rewrite andb_true_iff. intros [HT _]. now apply H.
Qed.

Lemma element_accepted_IsPow2 e :
  element_accepted e = true -> IsPow2 (AlignOf e) = true.
Proof.
  unfold element_accepted, IsLegalElementType. rewrite !andb_true_iff. tauto.
Qed.

Lemma accepted_is_pow2 e :
  wf_Element e = true -> element_accepted e = true -> AlignOf e <> 0 ->
  is_pow2 (AlignOf e).
Proof.
  intros Hwf Hacc Hnz. apply IsPow2_inv; trivial.
  - now apply wf_Element_AlignOf_range.
  - now apply element_accepted_IsPow2.
Qed.

Lemma valid_types_nth Ts i e :
  valid_types Ts = true -> nth_error Ts i = Some e ->
  wf_Element e = true /\ AlignOf e <> 0.
Proof.
  unfold valid_types. rewrite andb_true_iff, !forallb_forall.
  intros [Hwf Hnz] Hn. apply nth_error_In in Hn. split; [auto |].
  specialize (Hnz e Hn). apply negb_true_iff, Z.eqb_neq in Hnz. exact Hnz.
Qed.

Lemma valid_counts_nth sizes i c :
  valid_counts sizes = true -> nth_error sizes i = Some c -> in_range c.
Proof.
  unfold valid_counts. rewrite forallb_forall. intros H Hn.
  apply in_rangeb_spec, H. eapply nth_error_In, Hn.
Qed.

(** ** Construction *)

Lemma Min_min a b : Min a b = Nat.min a b.
Proof. unfold Min. destruct (Nat.ltb_spec b a); lia. Qed.

Lemma LayoutImpl_ctor_inv elements n m sizes L :
  LayoutImpl_ctor elements n m sizes = Some L ->
  L = mkLayoutImpl elements n m (map wrap sizes) /\
  (0 < length elements)%nat /\
  forallb element_accepted elements = true /\
  m = Nat.min (length elements) (n + 1) /\
  length sizes = n.
Proof.
  unfold LayoutImpl_ctor, LayoutImpl_static_asserts.
  destruct (_ && _) eqn:E; [| discriminate].
  rewrite !andb_true_iff in E. destruct E as [[[[H0 Hacc] Hm] _] Hlen].
  apply Nat.ltb_lt in H0. apply Nat.eqb_eq in Hm, Hlen.
  rewrite Min_min in Hm. intros [= <-]. auto.
Qed.

Lemma Partial_inv Ts sizes L :
  Partial Ts sizes = Some L ->
  L = mkLayoutImpl Ts (length sizes)
        (Nat.min (length Ts) (length sizes + 1)) (map wrap sizes) /\
  (0 < length Ts)%nat /\
  (length sizes <= length Ts)%nat /\
  forallb element_accepted Ts = true.
Proof.
  unfold Partial, LayoutType.
  destruct (_ && _) eqn:E; [| discriminate].
  apply andb_true_iff in E. destruct E as [_ Hle]. apply Nat.leb_le in Hle.
  intros H. apply LayoutImpl_ctor_inv in H.
  destruct H as (-> & H0 & Hacc & Hm & _). rewrite Min_min. auto.
Qed.

Lemma Partial_intro Ts sizes :
  (0 < length Ts)%nat -> (length sizes <= length Ts)%nat ->
  forallb element_accepted Ts = true ->
  Partial Ts sizes =
  Some (mkLayoutImpl Ts (length sizes)
          (Min (length Ts) (length sizes + 1)) (map wrap sizes)).
Proof.
  intros H0 Hle Hacc.
  unfold Partial, LayoutType, LayoutImpl_ctor, Layout_static_asserts,
    LayoutImpl_static_asserts.
  apply Nat.ltb_lt in H0. apply Nat.leb_le in Hle.
  rewrite H0, Hacc, Hle, !Nat.eqb_refl. reflexivity.
Qed.

(** The constructor of [Layout] builds the object that [Partial] builds
    from the same, complete, list of counts. *)
Lemma Layout_Partial Ts sizes L :
  Layout Ts sizes = Some L -> Partial Ts sizes = Some L.
Proof.
  unfold Layout, Partial.
  destruct (_ && _) eqn:E; [| discriminate].
  apply andb_true_iff in E. destruct E as [Hs Hlen].
  apply Nat.eqb_eq in Hlen. rewrite Hs, Hlen, Nat.leb_refl. trivial.
Qed.

Lemma Layout_length Ts sizes L :
  Layout Ts sizes = Some L -> length sizes = length Ts.
Proof.
  unfold Layout. destruct (_ && _) eqn:E; [| discriminate].
  apply andb_true_iff in E. destruct E as [_ Hlen].
  now apply Nat.eqb_eq in Hlen.
Qed.

(** ** Offsets of a constructed descriptor *)

Section Constructed.

Variables (Ts : list Element) (sizes : list Z) (L : LayoutImpl).
Hypothesis HP : Partial Ts sizes = Some L.

Lemma built_Elements : Elements L = Ts.
Proof. destruct (Partial_inv _ _ _ HP) as (-> & _). reflexivity. Qed.

Lemma built_size_ : size_ L = map wrap sizes.
Proof. destruct (Partial_inv _ _ _ HP) as (-> & _). reflexivity. Qed.

Lemma built_size_valid : valid_counts sizes = true -> size_ L = sizes.
Proof. intros H. rewrite built_size_. now apply map_wrap_valid. Qed.

Lemma built_size_nth i c :
  nth_error sizes i = Some c -> nth_error (size_ L) i = Some (wrap c).
Proof. intros H. now rewrite built_size_, nth_error_map, H. Qed.

Lemma built_NumSizes : NumSizes L = length sizes.
Proof. destruct (Partial_inv _ _ _ HP) as (-> & _). reflexivity. Qed.

Lemma built_NumOffsets :
  NumOffsets L = Nat.min (length Ts) (length sizes + 1).
Proof. destruct (Partial_inv _ _ _ HP) as (-> & _). reflexivity. Qed.

Lemma built_NumTypes : NumTypes L = length Ts.
Proof. unfold NumTypes. now rewrite built_Elements. Qed.

Lemma built_nonempty : (0 < length Ts)%nat.
Proof. now destruct (Partial_inv _ _ _ HP) as (_ & H & _). Qed.

Lemma built_prefix : (length sizes <= length Ts)%nat.
Proof. now destruct (Partial_inv _ _ _ HP) as (_ & _ & H & _). Qed.

Lemma built_accepted e : In e Ts -> element_accepted e = true.
Proof.
  destruct (Partial_inv _ _ _ HP) as (_ & _ & _ & H).
  rewrite forallb_forall in H. apply H.
Qed.

Lemma built_NumOffsets_pos : (0 < NumOffsets L)%nat.
Proof. rewrite built_NumOffsets. pose proof built_nonempty. lia. Qed.

(** One unfolding of [Offset<N>()] for [N != 0] inside the bound. *)
Lemma Offset_step i :
  (S i < NumOffsets L)%nat ->
  exists e c e',
    nth_error Ts i = Some e /\ nth_error sizes i = Some c /\
    nth_error Ts (S i) = Some e' /\
    Offset L (S i) =
    match Offset L i with
    | Some o => Some (Align (add o (mul (SizeOf e) c)) (AlignOf e'))
    | None => None
    end.
Proof.
  intros Hi. pose proof built_NumOffsets as HM.
  destruct (nth_error Ts i) as [e |] eqn:He.
  2:{ apply nth_error_None in He. lia. }
  destruct (nth_error sizes i) as [c |] eqn:Hc.
  2:{ apply nth_error_None in Hc. lia. }
  destruct (nth_error Ts (S i)) as [e' |] eqn:He'.
  2:{ apply nth_error_None in He'. lia. }
  exists e, c, e'. repeat split.
  cbn [Offset]. apply Nat.ltb_lt in Hi. rewrite Hi.
  unfold ElementType, ElementAlignment.
  rewrite built_Elements, (built_size_nth i c Hc), He, He'.
  cbn [option_map]. rewrite SizeOf_Type, mul_wrap_r.
  destruct (Offset L i); reflexivity.
Qed.

Lemma Offset_defined i :
  (i < NumOffsets L)%nat -> exists o, Offset L i = Some o.
Proof.
  induction i as [| i IH]; intros Hi.
  - exists 0. reflexivity.
  - destruct (Offset_step i Hi) as (e & c & e' & _ & _ & _ & Heq).
    destruct IH as [o Ho]; [lia |]. rewrite Ho in Heq. eauto.
Qed.

Lemma Offset_rejected i :
  (NumOffsets L <= i)%nat -> Offset L i = None.
Proof.
  intros Hi. pose proof built_NumOffsets_pos.
  destruct i as [| i]; [lia |]. cbn [Offset].
  apply Nat.ltb_ge in Hi. now rewrite Hi.
Qed.

Hypothesis Hvalid : valid_types Ts = true.

Lemma built_is_pow2 i e :
  nth_error Ts i = Some e -> is_pow2 (AlignOf e).
Proof.
  intros He. destruct (valid_types_nth _ _ _ Hvalid He) as [Hwf Hnz].
  apply accepted_is_pow2; trivial.
  apply built_accepted. eapply nth_error_In, He.
Qed.

Lemma Offset_in_range i o : Offset L i = Some o -> in_range o.
Proof.
  destruct i as [| i].
  - intros [= <-]. unfold in_range. rewrite modulus_val. lia.
  - intros Ho.
    destruct (Nat.ltb_spec (S i) (NumOffsets L)) as [Hi | Hi].
    2:{ rewrite Offset_rejected in Ho by assumption. discriminate. }
    destruct (Offset_step i Hi) as (e & c & e' & _ & _ & He' & Heq).
    rewrite Heq in Ho. destruct (Offset L i) as [o' |]; [| discriminate].
    injection Ho as <-.
    destruct (built_is_pow2 _ _ He') as (k & Hk & ->).
    apply Align_in_range. lia.
Qed.

Lemma Offset_multiple i o e :
  Offset L i = Some o -> nth_error Ts i = Some e -> o mod AlignOf e = 0.
Proof.
  intros Ho He. destruct (built_is_pow2 _ _ He) as (k & Hk & Ek).
  destruct i as [| i].
  - injection Ho as <-. apply Z.mod_0_l. rewrite Ek.
    pose proof (pow2_pos k). lia.
  - destruct (Nat.ltb_spec (S i) (NumOffsets L)) as [Hi | Hi].
    2:{ rewrite Offset_rejected in Ho by assumption. discriminate. }
    destruct (Offset_step i Hi) as (e0 & c & e' & _ & _ & He' & Heq).
    rewrite He in He'. injection He' as <-.
    rewrite Heq in Ho. destruct (Offset L i) as [o' |]; [| discriminate].
    injection Ho as <-. rewrite Ek. apply Align_multiple. lia.
Qed.

End Constructed.

(** ** The exact layout and when the code computes it *)

Lemma Align_spec_fits x k :
  0 <= k < bits -> Align_spec x (2 ^ k) < modulus -> x + 2 ^ k - 1 < modulus.
Proof.
  intros Hk Hlt. assert (Hm : 0 < 2 ^ k) by (apply pow2_pos; lia).
  pose proof (Align_spec_bounds x (2 ^ k) Hm) as Hb.
  pose proof (modulus_multiple k Hk) as HM.
  unfold Align_spec in *. set (q := ceil_div x (2 ^ k)) in *.
  set (m := 2 ^ k) in *. set (M := 2 ^ (bits - k)) in *.
  rewrite HM in *.
  assert (q < M) by (apply (Z.mul_lt_mono_pos_r m); lia).
  assert (q * m <= (M - 1) * m) by (apply Z.mul_le_mono_nonneg_r; lia).
  lia.
Qed.

Section ExactLayout.

Variables (Ts : list Element) (sizes : list Z).
Hypothesis Hvalid : valid_types Ts = true.
Hypothesis Hcounts : valid_counts sizes = true.

Lemma alignment_at_pos i : 0 < alignment_at Ts i.
Proof.
  unfold alignment_at. destruct (nth_error Ts i) as [e |] eqn:He; [| lia].
  destruct (valid_types_nth _ _ _ Hvalid He) as [Hwf Hnz].
  destruct e as [T | T N]; cbn in *.
  - unfold wf_CType in Hwf. rewrite !andb_true_iff in Hwf.
    destruct Hwf as [[_ H] _]. now apply Z.ltb_lt in H.
  - apply andb_true_iff in Hwf. destruct Hwf as [_ H].
    apply in_rangeb_spec in H. unfold in_range in H. lia.
Qed.

Lemma size_at_nonneg i : 0 <= size_at Ts i.
Proof.
  unfold size_at. destruct (nth_error Ts i) as [e |] eqn:He; [| lia].
  destruct (valid_types_nth _ _ _ Hvalid He) as [Hwf _].
  pose proof (wf_Element_SizeOf_range e Hwf). lia.
Qed.

Lemma count_at_nonneg i : 0 <= count_at sizes i.
Proof.
  unfold count_at. destruct (nth_error sizes i) as [c |] eqn:Hc; [| lia].
  pose proof (valid_counts_nth _ _ _ Hcounts Hc) as H.
  unfold in_range in H. lia.
Qed.

Lemma Offset_spec_step_le i :
  Offset_spec Ts sizes i + size_at Ts i * count_at sizes i
  <= Offset_spec Ts sizes (S i).
Proof.
  cbn [Offset_spec]. apply Align_spec_bounds, alignment_at_pos.
Qed.

Lemma Offset_spec_S_le i : Offset_spec Ts sizes i <= Offset_spec Ts sizes (S i).
Proof.
  pose proof (Offset_spec_step_le i).
  pose proof (size_at_nonneg i). pose proof (count_at_nonneg i). nia.
Qed.

Lemma Offset_spec_mono i j :
  (i <= j)%nat -> Offset_spec Ts sizes i <= Offset_spec Ts sizes j.
Proof.
  induction 1 as [| j _ IH]; [lia |].
  pose proof (Offset_spec_S_le j). lia.
Qed.

Lemma Offset_spec_nonneg i : 0 <= Offset_spec Ts sizes i.
Proof. apply (Offset_spec_mono 0 i). lia. Qed.

Variable L : LayoutImpl.
Hypothesis HP : Partial Ts sizes = Some L.

(** As long as the exact layout is representable, the code computes it. *)
Lemma Offset_refines i :
  (i < NumOffsets L)%nat -> fits Ts sizes i ->
  Offset L i = Some (Offset_spec Ts sizes i).
Proof.
  unfold fits. induction i as [| i IH]; intros Hi Hfit; [reflexivity |].
  pose proof (Offset_spec_S_le i) as Hmono.
  pose proof (Offset_spec_step_le i) as Hstep.
  pose proof (Offset_spec_nonneg i) as H0.
  pose proof (size_at_nonneg i) as Hs. pose proof (count_at_nonneg i) as Hc.
  destruct (Offset_step Ts sizes L HP i Hi)
    as (e & c & e' & He & Hcn & He' & Heq).
  rewrite IH in Heq by lia. rewrite Heq. f_equal.
  cbn [Offset_spec] in *. unfold size_at, count_at, alignment_at in *.
  rewrite He, Hcn in *. rewrite He' in *.
  destruct (built_is_pow2 Ts sizes L HP Hvalid _ _ He') as (k & Hk & Ek).
  rewrite Ek in *.
  pose proof (Align_spec_fits _ k Hk Hfit) as Hroom.
  assert (Hm : 0 < 2 ^ k) by (apply pow2_pos; lia).
  assert (Hsc : 0 <= SizeOf e * c) by nia.
  unfold add, mul.
  rewrite (wrap_small (SizeOf e * c)) by (unfold in_range; lia).
  rewrite wrap_small by (unfold in_range; lia).
  apply Align_exact; unfold in_range; lia.
Qed.

(** One step of the recurrence, exact when it does not overflow. *)
Lemma Offset_step_exact i o :
  (S i < NumOffsets L)%nat -> Offset L i = Some o ->
  o + size_at Ts i * count_at sizes i + alignment_at Ts (S i) - 1 < modulus ->
  Offset L (S i) =
  Some (Align_spec (o + size_at Ts i * count_at sizes i)
                   (alignment_at Ts (S i))).
Proof.
  intros Hi Ho Hroom.
  pose proof (size_at_nonneg i) as Hs. pose proof (count_at_nonneg i) as Hc.
  pose proof (Offset_in_range Ts sizes L HP Hvalid _ _ Ho) as Hor.
  destruct (Offset_step Ts sizes L HP i Hi)
    as (e & c & e' & He & Hcn & He' & Heq).
  rewrite Ho in Heq. rewrite Heq. f_equal.
  unfold size_at, count_at, alignment_at in *.
  rewrite He, Hcn in *. rewrite He' in *.
  destruct (built_is_pow2 Ts sizes L HP Hvalid _ _ He') as (k & Hk & Ek).
  rewrite Ek in *.
  assert (Hm : 0 < 2 ^ k) by (apply pow2_pos; lia).
  assert (Hsc : 0 <= SizeOf e * c) by nia.
  unfold in_range in Hor. unfold add, mul.
  rewrite (wrap_small (SizeOf e * c)) by (unfold in_range; lia).
  rewrite wrap_small by (unfold in_range; lia).
  apply Align_exact; unfold in_range; lia.
Qed.

(** Without overflow, array [i + 1] starts at or after the end of array
    [i]. *)
Lemma Offset_step_le i :
  (S i < NumOffsets L)%nat -> no_overflow_at Ts sizes L (S i) ->
  exists o o',
    Offset L i = Some o /\ Offset L (S i) = Some o' /\
    o + size_at Ts i * count_at sizes i <= o'.
Proof.
  intros Hi Hno. unfold no_overflow_at in Hno.
  cbn [Nat.sub] in Hno. rewrite Nat.sub_0_r in Hno.
  destruct (Offset_defined Ts sizes L HP i) as [o Ho]; [lia |].
  specialize (Hno o Ho).
  exists o, (Align_spec (o + size_at Ts i * count_at sizes i)
                        (alignment_at Ts (S i))).
  split; [exact Ho |]. split; [now apply Offset_step_exact |].
  apply Align_spec_bounds, alignment_at_pos.
Qed.

(** Without overflow between them, array [j] starts at or after the end of
    any earlier array [i]. *)
Lemma Offset_chain_le i j :
  (i < j)%nat -> (j < NumOffsets L)%nat ->
  (forall k, (i < k <= j)%nat -> no_overflow_at Ts sizes L k) ->
  exists o o',
    Offset L i = Some o /\ Offset L j = Some o' /\
    o + size_at Ts i * count_at sizes i <= o'.
Proof.
  intros Hij. induction Hij as [| j Hij IH]; intros Hj Hno.
  - apply Offset_step_le; [exact Hj | apply Hno; lia].
  - destruct IH as (o & om & Ho & Hom & Hle); [lia | |].
    { intros k Hk. apply Hno. lia. }
    destruct (Offset_step_le j Hj) as (om' & o' & Hom' & Ho' & Hle').
    { apply Hno. lia. }
    assert (om' = om) by congruence. subst om'.
    pose proof (size_at_nonneg j). pose proof (count_at_nonneg j).
    exists o, o'. split; [exact Ho |]. split; [exact Ho' |]. nia.
Qed.

End ExactLayout.

(** ** [Max], [expand] and pack expansions *)

Lemma Max_ge_first a rest : a <= Max a rest.
Proof.
  revert a. induction rest as [| b rest IH]; intros a; cbn [Max]; [lia |].
  etransitivity; [| apply IH]. destruct (Z.ltb_spec b a); lia.
Qed.

Lemma Max_upper a rest x : In x (a :: rest) -> x <= Max a rest.
Proof.
  revert a. induction rest as [| b rest IH]; intros a Hx.
  - destruct Hx as [<- | []]. cbn. lia.
  - destruct Hx as [<- | [<- | Hx]].
    + apply Max_ge_first.
    + cbn [Max]. etransitivity; [| apply Max_ge_first].
      destruct (Z.ltb_spec b a); lia.
    + cbn [Max]. apply IH. now right.
Qed.

Lemma Max_In a rest : In (Max a rest) (a :: rest).
Proof.
  revert a. induction rest as [| b rest IH]; intros a; cbn [Max].
  - now left.
  - destruct (IH (if b <? a then a else b)) as [E | Hin].
    + rewrite <- E. destruct (b <? a); [now left | right; now left].
    + right. now right.
Qed.

Lemma expand_seq {A : Type} (f : nat -> option A) (l : list A) s :
  (forall i, (i < length l)%nat -> f (s + i)%nat = nth_error l i) ->
  expand f (seq s (length l)) = Some l.
Proof.
  revert s. induction l as [| x l IH]; intros s Hf; [reflexivity |].
  cbn [length seq expand].
  pose proof (Hf O ltac:(cbn; lia)) as H0.
  rewrite Nat.add_0_r in H0. rewrite H0. cbn [nth_error].
  rewrite IH; [reflexivity |].
  intros i Hi. specialize (Hf (S i) ltac:(cbn; lia)).
  cbn [nth_error] in Hf. rewrite <- Hf. f_equal. lia.
Qed.

Lemma run_all_id qs L : run_all qs L = L.
Proof.
  revert L. induction qs as [| q qs IH]; intros L; [reflexivity |].
  cbn [run_all]. rewrite IH. now destruct q.
Qed.

(** ** Powers of two divide larger powers of two *)

Lemma is_pow2_pos a : is_pow2 a -> 0 < a.
Proof. intros (k & Hk & ->). apply pow2_pos. lia. Qed.

Lemma is_pow2_divides a b :
  is_pow2 a -> is_pow2 b -> a <= b -> b mod a = 0.
Proof.
  intros (k & Hk & ->) (j & Hj & ->) Hle.
  assert (k <= j) by (apply (Z.pow_le_mono_r_iff 2); lia).
  replace j with ((j - k) + k) by lia.
  rewrite Z.pow_add_r by lia. apply Z.mod_mul.
  pose proof (pow2_pos k). lia.
Qed.

(** An override other than zero is accepted exactly when it is valid. *)
Lemma override_rejected T A :
  wf_CType T = true -> in_range A -> A <> 0 ->
  ~ is_pow2 A \/ A < ty_alignof T ->
  element_accepted (Aligned T A) = false.
Proof.
  intros Hwf HA Hnz Hbad.
  unfold element_accepted, IsLegalElementType. cbn.
  destruct (Z.eqb_spec (A mod ty_alignof T) 0) as [Hmod | Hmod];
    [| reflexivity].
  destruct (IsPow2 A) eqn:Hp; [| now rewrite !andb_false_r].
  exfalso. destruct Hbad as [Hnp | Hlt].
  - apply Hnp. now apply IsPow2_inv.
  - unfold in_range in HA. rewrite Z.mod_small in Hmod by lia. lia.
Qed.

Lemma override_accepted T A :
  wf_CType T = true -> is_pow2 (ty_alignof T) ->
  ty_is_reference T = false -> ty_is_volatile T = false ->
  valid_override T A ->
  element_accepted (Aligned T A) = true.
Proof.
  intros Hwf Hnat Hr Hv [HA Hle].
  unfold element_accepted, IsLegalElementType. cbn.
  rewrite Hr, Hv, (is_pow2_divides _ _ Hnat HA Hle). cbn.
  destruct HA as (k & Hk & ->). now apply IsPow2_pow2.
Qed.

(** * The properties of the specification *)

Ltac in_range_tac := unfold in_range, fits; rewrite ?modulus_val; cbn; lia.

(** C9.  For [size_t] values [n] and [m], [m] a power of two and
    [n + m - 1] not overflowing, the bit trick
    [Align(n, m) = (n + m - 1) & ~(m - 1)] equals [ceil(n/m) * m]; it is a
    multiple of [m], at least [n], and no multiple of [m] that is at least
    [n] is smaller. *)
Theorem C9_Align_is_ceiling n m :
  in_range n -> is_pow2 m -> n + m - 1 < modulus ->
  Align n m = Align_spec n m /\
  Align n m mod m = 0 /\
  n <= Align n m /\
  (forall q, n <= q * m -> Align n m <= q * m).
Proof.
  intros Hn (k & Hk & ->) Hfit.
  assert (Hm : 0 < 2 ^ k) by (apply pow2_pos; lia).
  rewrite Align_exact by (assumption || lia).
  split; [reflexivity |]. split; [now apply Align_spec_multiple |].
  split; [now apply Align_spec_bounds |].
  intros q Hq. now apply Align_spec_least.
Qed.

Lemma C9_Align_is_ceiling_witness :
  Align 13 8 = Align_spec 13 8 /\
  Align 13 8 mod 8 = 0 /\
  13 <= Align 13 8 /\
  (forall q, 13 <= q * 8 -> Align 13 8 <= q * 8).
Proof.
  apply (C9_Align_is_ceiling 13 8).
  - in_range_tac.
  - exists 3. split; [unfold bits; lia | reflexivity].
  - rewrite modulus_val. lia.
Defined.

(** C1 (amended).  In a valid descriptor, [Offset<0>()] is [0] and, for
    [0 < i < M], [Offset<i>()] is
    [Align(Offset(i-1) + size(i-1) * count(i-1), alignment(i))] computed in
    64-bit unsigned arithmetic, where [alignment(i)] is the natural
    alignment of the element type or its override: the result equals
    [ceil(x/a) * a] modulo [2^64], and equals it exactly whenever
    [Offset(i-1) + size(i-1) * count(i-1) + alignment(i) - 1] does not
    overflow [size_t]. *)
Theorem C1_offset_recurrence Ts sizes L i :
  valid_types Ts = true -> valid_counts sizes = true ->
  Partial Ts sizes = Some L -> (0 < i < NumOffsets L)%nat ->
  Offset L 0 = Some 0 /\
  exists o e c e',
    Offset L (i - 1) = Some o /\ nth_error Ts (i - 1) = Some e /\
    nth_error sizes (i - 1) = Some c /\ nth_error Ts i = Some e' /\
    AlignOf e' =
      match e' with Plain T => ty_alignof T | Aligned _ A => A end /\
    Offset L i =
      Some (wrap (Align_spec (add o (mul (SizeOf e) c)) (AlignOf e'))) /\
    (o + SizeOf e * c + AlignOf e' - 1 < modulus ->
     Offset L i = Some (Align_spec (o + SizeOf e * c) (AlignOf e'))).
Proof.
  intros Hvalid Hcounts HP [Hi0 HiM]. split; [reflexivity |].
  destruct i as [| i]; [lia |]. cbn [Nat.sub]. rewrite Nat.sub_0_r.
  destruct (Offset_step Ts sizes L HP i HiM)
    as (e & c & e' & He & Hc & He' & Heq).
  destruct (Offset_defined Ts sizes L HP i) as [o Ho]; [lia |].
  rewrite Ho in Heq.
  exists o, e, c, e'. repeat (split; [assumption |]).
  split; [now destruct e' |].
  destruct (built_is_pow2 Ts sizes L HP Hvalid _ _ He') as (k & Hk & Ek).
  rewrite Heq, Ek. split.
  - f_equal. apply Align_wraps; [apply wrap_range | assumption].
  - intros Hroom. f_equal.
    pose proof (Offset_in_range Ts sizes L HP Hvalid _ _ Ho) as Hor.
    destruct (valid_types_nth _ _ _ Hvalid He) as [Hwf _].
    pose proof (wf_Element_SizeOf_range e Hwf) as Hs.
    pose proof (valid_counts_nth _ _ _ Hcounts Hc) as Hcr.
    assert (Hm : 0 < 2 ^ k) by (apply pow2_pos; lia).
    unfold in_range in *.
    assert (Hsc : 0 <= SizeOf e * c) by nia.
    unfold add, mul.
    rewrite (wrap_small (SizeOf e * c)) by (unfold in_range; lia).
    rewrite wrap_small by (unfold in_range; lia).
    apply Align_exact; unfold in_range; lia.
Qed.

Lemma C1_offset_recurrence_witness :
  Offset L_custom 0 = Some 0 /\
  exists o e c e',
    Offset L_custom (2 - 1) = Some o /\ nth_error Ts_custom (2 - 1) = Some e /\
    nth_error sizes_auto (2 - 1) = Some c /\ nth_error Ts_custom 2 = Some e' /\
    AlignOf e' =
      match e' with Plain T => ty_alignof T | Aligned _ A => A end /\
    Offset L_custom 2 =
      Some (wrap (Align_spec (add o (mul (SizeOf e) c)) (AlignOf e'))) /\
    (o + SizeOf e * c + AlignOf e' - 1 < modulus ->
     Offset L_custom 2 = Some (Align_spec (o + SizeOf e * c) (AlignOf e'))).
Proof.
  apply (C1_offset_recurrence Ts_custom sizes_auto L_custom 2).
  - reflexivity.
  - reflexivity.
  - reflexivity.
  - cbn. lia.
Defined.

(** C1, as written, fails when the sum overflows:
    [Layout<char, int>::Partial(SIZE_MAX).Offset<1>()] is [0], not the
    multiple of four above [SIZE_MAX]. *)
Lemma C1_counterexample : ~ Offset_recurrence_exact.
Proof.
  intros H.
  destruct (H [Plain c_char; Plain c_int] [SIZE_MAX]
              (mkLayoutImpl [Plain c_char; Plain c_int] 1 2 [SIZE_MAX]) 1%nat
              eq_refl eq_refl eq_refl ltac:(cbn; lia)) as (o & Ho & Hbad).
  cbn in Ho. injection Ho as <-. vm_compute in Hbad. discriminate.
Qed.

(** C2.  A descriptor over [N] element types built from [K <= N] counts
    has [M = min(N, K + 1)] computable offsets: [Offset<i>()] succeeds for
    [i < M] and is rejected for [i >= M].  Every [K] from [0] to [N] can be
    supplied. *)
Theorem C2_num_offsets Ts sizes L :
  Partial Ts sizes = Some L ->
  (length sizes <= length Ts)%nat /\
  NumTypes L = length Ts /\ NumSizes L = length sizes /\
  NumOffsets L = Nat.min (length Ts) (length sizes + 1) /\
  NumOffsets L = Min (NumTypes L) (NumSizes L + 1) /\
  (forall i, (i < NumOffsets L)%nat -> exists o, Offset L i = Some o) /\
  (forall i, (NumOffsets L <= i)%nat -> Offset L i = None) /\
  (forall sizes', (length sizes' <= length Ts)%nat ->
                  exists L', Partial Ts sizes' = Some L').
Proof.
  intros HP.
  split; [exact (built_prefix Ts sizes L HP) |].
  split; [exact (built_NumTypes Ts sizes L HP) |].
  split; [exact (built_NumSizes Ts sizes L HP) |].
  split; [exact (built_NumOffsets Ts sizes L HP) |].
  split.
  { rewrite Min_min, (built_NumTypes Ts sizes L HP),
      (built_NumSizes Ts sizes L HP).
    exact (built_NumOffsets Ts sizes L HP). }
  split; [exact (Offset_defined Ts sizes L HP) |].
  split; [exact (Offset_rejected Ts sizes L HP) |].
  intros sizes' Hle. eexists. apply Partial_intro; trivial.
  - exact (built_nonempty Ts sizes L HP).
  - destruct (Partial_inv _ _ _ HP) as (_ & _ & _ & H). exact H.
Qed.

Lemma C2_num_offsets_witness :
  (length sizes_tutorial2 <= length Ts_tutorial)%nat /\
  NumTypes L_tutorial2 = length Ts_tutorial /\
  NumSizes L_tutorial2 = length sizes_tutorial2 /\
  NumOffsets L_tutorial2 =
    Nat.min (length Ts_tutorial) (length sizes_tutorial2 + 1) /\
  NumOffsets L_tutorial2 =
    Min (NumTypes L_tutorial2) (NumSizes L_tutorial2 + 1) /\
  (forall i, (i < NumOffsets L_tutorial2)%nat ->
             exists o, Offset L_tutorial2 i = Some o) /\
  (forall i, (NumOffsets L_tutorial2 <= i)%nat ->
             Offset L_tutorial2 i = None) /\
  (forall sizes', (length sizes' <= length Ts_tutorial)%nat ->
                  exists L', Partial Ts_tutorial sizes' = Some L').
Proof.
  apply (C2_num_offsets Ts_tutorial sizes_tutorial2 L_tutorial2).
  reflexivity.
Defined.

(** C3 (amended).  [AllocSize()] is defined exactly when all [N] counts are
    known; the constructor of [Layout] takes exactly [N] counts.  When
    defined it is [Offset(N-1) + size(N-1) * count(N-1)] in 64-bit unsigned
    arithmetic, with no padding after the last array: the exact end of the
    last array whenever that end is representable in [size_t], and that
    end modulo [2^64] in general. *)
Theorem C3_AllocSize Ts sizes L :
  valid_types Ts = true -> valid_counts sizes = true ->
  Partial Ts sizes = Some L ->
  (AllocSize L <> None <-> length sizes = length Ts) /\
  (length sizes = length Ts ->
   exists o e c,
     Offset L (length Ts - 1) = Some o /\
     nth_error Ts (length Ts - 1) = Some e /\
     nth_error sizes (length Ts - 1) = Some c /\
     AllocSize L = Some (wrap (o + SizeOf e * c)) /\
     (o + SizeOf e * c < modulus -> AllocSize L = Some (o + SizeOf e * c))).
Proof.
  intros Hvalid Hcounts HP.
  pose proof (built_nonempty Ts sizes L HP) as Hne.
  assert (Hfull : length sizes = length Ts ->
    exists o e c,
     Offset L (length Ts - 1) = Some o /\
     nth_error Ts (length Ts - 1) = Some e /\
     nth_error sizes (length Ts - 1) = Some c /\
     AllocSize L = Some (wrap (o + SizeOf e * c))).
  { intros Hlen.
    destruct (Offset_defined Ts sizes L HP (length Ts - 1)) as [o Ho].
    { rewrite (built_NumOffsets Ts sizes L HP). lia. }
    destruct (nth_error Ts (length Ts - 1)) as [e |] eqn:He.
    2:{ apply nth_error_None in He. lia. }
    destruct (nth_error sizes (length Ts - 1)) as [c |] eqn:Hc.
    2:{ apply nth_error_None in Hc. lia. }
    exists o, e, c. split; [exact Ho |]. do 2 (split; [reflexivity |]).
    unfold AllocSize, ElementType.
    rewrite (built_NumTypes Ts sizes L HP), (built_NumSizes Ts sizes L HP),
      (built_Elements Ts sizes L HP).
    rewrite Hlen, Nat.eqb_refl, Ho, He,
      (built_size_nth Ts sizes L HP _ _ Hc).
    cbn [option_map]. rewrite SizeOf_Type, mul_wrap_r. f_equal.
    unfold add, mul, wrap. apply Zplus_mod_idemp_r. }
  split.
  - split.
    + intros Hdef. unfold AllocSize in Hdef.
      rewrite (built_NumTypes Ts sizes L HP),
        (built_NumSizes Ts sizes L HP) in Hdef.
      destruct (Nat.eqb_spec (length Ts) (length sizes)); congruence.
    + intros Hlen. destruct (Hfull Hlen) as (o & e & c & _ & _ & _ & ->).
      discriminate.
  - intros Hlen. destruct (Hfull Hlen) as (o & e & c & Ho & He & Hc & HA).
    exists o, e, c. repeat (split; [assumption |]).
    intros Hroom. rewrite HA. f_equal. apply wrap_small.
    pose proof (Offset_in_range Ts sizes L HP Hvalid _ _ Ho) as Hor.
    destruct (valid_types_nth _ _ _ Hvalid He) as [Hwf _].
    pose proof (wf_Element_SizeOf_range e Hwf) as Hs.
    pose proof (valid_counts_nth _ _ _ Hcounts Hc) as Hcr.
    unfold in_range in *. nia.
Qed.

Lemma C3_AllocSize_witness :
  (AllocSize L_auto <> None <-> length sizes_auto = length Ts_auto) /\
  (length sizes_auto = length Ts_auto ->
   exists o e c,
     Offset L_auto (length Ts_auto - 1) = Some o /\
     nth_error Ts_auto (length Ts_auto - 1) = Some e /\
     nth_error sizes_auto (length Ts_auto - 1) = Some c /\
     AllocSize L_auto = Some (wrap (o + SizeOf e * c)) /\
     (o + SizeOf e * c < modulus ->
      AllocSize L_auto = Some (o + SizeOf e * c))).
Proof.
  apply (C3_AllocSize Ts_auto sizes_auto L_auto); reflexivity.
Defined.

(** C3, as written, fails when the product overflows:
    [Layout<int>(2^62).AllocSize()] is [0], while the array ends at byte
    [2^64]. *)
Lemma C3_counterexample : ~ AllocSize_exact.
Proof.
  intros H.
  destruct (H [Plain c_int] [2 ^ 62]
              (mkLayoutImpl [Plain c_int] 1 1 [2 ^ 62])
              eq_refl eq_refl eq_refl) as (o & Ho & Hbad).
  cbn in Ho. injection Ho as <-. vm_compute in Hbad. discriminate.
Qed.

(** C4 (amended).  In a valid descriptor every computable [Offset(i)] is a
    multiple of [alignment(i)].  For [i > 0], whenever computing
    [Offset(i)] does not overflow [size_t],
    [Offset(i) >= Offset(i-1) + size(i-1) * count(i-1)]; consequently the
    byte ranges [[Offset(i), Offset(i) + size(i) * count(i))] of two
    distinct arrays do not overlap whenever no offset computation between
    them overflows. *)
Theorem C4_offsets_aligned_ordered Ts sizes L :
  valid_types Ts = true -> valid_counts sizes = true ->
  Partial Ts sizes = Some L ->
  (forall i, (i < NumOffsets L)%nat ->
     exists o, Offset L i = Some o /\ o mod alignment_at Ts i = 0) /\
  (forall i, (0 < i < NumOffsets L)%nat -> no_overflow_at Ts sizes L i ->
     exists o o',
       Offset L (i - 1) = Some o /\ Offset L i = Some o' /\
       o + size_at Ts (i - 1) * count_at sizes (i - 1) <= o') /\
  (forall i j b,
     (i < j < NumOffsets L)%nat ->
     (forall k, (i < k <= j)%nat -> no_overflow_at Ts sizes L k) ->
     in_array Ts sizes L i b -> in_array Ts sizes L j b -> False).
Proof.
  intros Hvalid Hcounts HP. split; [| split].
  - intros i Hi. destruct (Offset_defined Ts sizes L HP i Hi) as [o Ho].
    exists o. split; [assumption |]. unfold alignment_at.
    destruct (nth_error Ts i) as [e |] eqn:He.
    + exact (Offset_multiple Ts sizes L HP Hvalid i o e Ho He).
    + apply Z.mod_1_r.
  - intros i [Hi0 HiM] Hno. destruct i as [| i]; [lia |].
    cbn [Nat.sub]. rewrite Nat.sub_0_r.
    exact (Offset_step_le Ts sizes Hvalid Hcounts L HP i HiM Hno).
  - intros i j b [Hij Hj] Hno (oi & Hoi & Hbi) (oj & Hoj & Hbj).
    destruct (Offset_chain_le Ts sizes Hvalid Hcounts L HP i j Hij Hj Hno)
      as (o & o' & Ho & Ho' & Hle).
    assert (o = oi) by congruence. assert (o' = oj) by congruence.
    subst. lia.
Qed.

Lemma C4_offsets_aligned_ordered_witness :
  (forall i, (i < NumOffsets L_auto)%nat ->
     exists o, Offset L_auto i = Some o /\ o mod alignment_at Ts_auto i = 0) /\
  (forall i, (0 < i < NumOffsets L_auto)%nat ->
     no_overflow_at Ts_auto sizes_auto L_auto i ->
     exists o o',
       Offset L_auto (i - 1) = Some o /\ Offset L_auto i = Some o' /\
       o + size_at Ts_auto (i - 1) * count_at sizes_auto (i - 1) <= o') /\
  (forall i j b,
     (i < j < NumOffsets L_auto)%nat ->
     (forall k, (i < k <= j)%nat ->
                no_overflow_at Ts_auto sizes_auto L_auto k) ->
     in_array Ts_auto sizes_auto L_auto i b ->
     in_array Ts_auto sizes_auto L_auto j b -> False).
Proof.
  apply (C4_offsets_aligned_ordered Ts_auto sizes_auto L_auto); reflexivity.
Defined.

(** C4, as written, fails when the layout overflows: in
    [Layout<char, int>::Partial(SIZE_MAX)] the [int] array starts at offset
    [0], below the end [SIZE_MAX] of the [char] array. *)
Lemma C4_counterexample : ~ Offsets_ordered_always.
Proof.
  intros H.
  destruct (H [Plain c_char; Plain c_int] [SIZE_MAX]
              (mkLayoutImpl [Plain c_char; Plain c_int] 1 2 [SIZE_MAX]) 1%nat
              eq_refl eq_refl eq_refl ltac:(cbn; lia))
    as (o & o' & Ho & Ho' & Hbad).
  cbn in Ho. injection Ho as <-.
  vm_compute in Ho'. injection Ho' as <-.
  vm_compute in Hbad. apply Hbad. reflexivity.
Qed.

(** C5.  Let [K1 < K2 <= N].  Every offset computable from [Partial] with
    [K1] counts (index below [min(N, K1 + 1)]) is computed, with the same
    value, by any [Partial] or full [Layout] descriptor over the same types
    whose [K2] counts agree with the first on their first [K1] entries. *)
Theorem C5_partial_full_consistency Ts sizes1 sizes2 L1 L2 i :
  (length sizes1 < length sizes2)%nat ->
  firstn (length sizes1) sizes2 = sizes1 ->
  Partial Ts sizes1 = Some L1 ->
  Partial Ts sizes2 = Some L2 \/ Layout Ts sizes2 = Some L2 ->
  (i < Nat.min (length Ts) (length sizes1 + 1))%nat ->
  (i < NumOffsets L1)%nat /\ (i < NumOffsets L2)%nat /\
  exists o, Offset L1 i = Some o /\ Offset L2 i = Some o.
Proof.
  intros Hlt Hpre HP1 HP2 Hi.
  assert (HP2' : Partial Ts sizes2 = Some L2).
  { destruct HP2 as [H | H]; [exact H | now apply Layout_Partial]. }
  clear HP2.
  pose proof (built_NumOffsets Ts sizes1 L1 HP1) as HM1.
  pose proof (built_NumOffsets Ts sizes2 L2 HP2') as HM2.
  split; [lia |]. split; [lia |].
  assert (Hnth : forall j, (j < length sizes1)%nat ->
                           nth_error sizes2 j = nth_error sizes1 j).
  { intros j Hj. rewrite <- Hpre. rewrite nth_error_firstn.
    apply Nat.ltb_lt in Hj. now rewrite Hj. }
  induction i as [| i IH].
  - exists 0. split; reflexivity.
  - destruct IH as (o & Ho1 & Ho2); [lia |].
    destruct (Offset_step Ts sizes1 L1 HP1 i)
      as (e & c & e' & He & Hc & He' & Heq1); [lia |].
    destruct (Offset_step Ts sizes2 L2 HP2' i)
      as (f & d & f' & Hf & Hd & Hf' & Heq2); [lia |].
    rewrite Hnth in Hd by lia.
    assert (f = e) by congruence. assert (d = c) by congruence.
    assert (f' = e') by congruence. subst f d f'.
    rewrite Ho1 in Heq1. rewrite Ho2 in Heq2. eauto.
Qed.

Lemma C5_partial_full_consistency_witness :
  (2 < Nat.min (length Ts_tutorial) (length sizes_tutorial2 + 1))%nat /\
  (2 < NumOffsets L_tutorial2)%nat /\ (2 < NumOffsets L_tutorial4)%nat /\
  exists o, Offset L_tutorial2 2 = Some o /\ Offset L_tutorial4 2 = Some o.
Proof.
  split; [cbn; lia |].
  apply (C5_partial_full_consistency Ts_tutorial sizes_tutorial2
           sizes_tutorial4).
  - cbn. lia.
  - reflexivity.
  - reflexivity.
  - right. reflexivity.
  - cbn. lia.
Defined.

(** C6, evaluated at a first array with the override zero.  The header
    does not reject [Aligned<double, 0>], and then
    [Layout<Aligned<double, 0>, char>] has [Alignment() == 1]: the buffer
    address [1] is aligned to [Alignment()], [Pointer<0>(p)] returns it for
    the array of [double], and it is not aligned for a [double]. *)
Theorem C6_zero_override_misaligns_first_array :
  exists L,
    Layout [Aligned c_double 0; Plain c_char] [2; 3] = Some L /\
    Alignment L = Some 1 /\
    1 mod 1 = 0 /\
    Offset L 0 = Some 0 /\
    Pointer L 0 1 = Some 1 /\
    1 mod ty_alignof c_double <> 0.
Proof.
  eexists. split; [reflexivity |]. repeat split; try reflexivity.
  cbn. discriminate.
Qed.

(** C7, evaluated at the override zero.  [Aligned<int, 0>] passes both
    checks, [0 % alignof(int) == 0] and [IsPow2(0)], although zero is not a
    power of two and is below [alignof(int)]; a descriptor over it is
    built, and its [int] array is placed at offset [0], on top of the
    [char] array. *)
Theorem C7_zero_override_accepted :
  ~ is_pow2 0 /\ 0 < ty_alignof c_int /\
  AlignOf_static_assert (Aligned c_int 0) = true /\
  IsLegalElementType (Aligned c_int 0) = true /\
  element_accepted (Aligned c_int 0) = true /\
  exists L,
    Layout [Plain c_char; Aligned c_int 0] [3; 2] = Some L /\
    Offset L 0 = Some 0 /\ Offset L 1 = Some 0.
Proof.
  split.
  { intros (k & Hk & E). pose proof (pow2_pos k). lia. }
  split; [reflexivity |]. do 3 (split; [reflexivity |]).
  eexists. split; [reflexivity |]. split; reflexivity.
Qed.

(** Every other invalid override is rejected when the element type is
    defined: for [A <> 0], an [A] that is not a power of two, or is below
    the natural alignment, is not accepted, and no descriptor over a type
    list containing it can be built. *)
Lemma nonzero_invalid_override_rejected T A Ts sizes :
  wf_CType T = true -> in_range A -> A <> 0 ->
  ~ is_pow2 A \/ A < ty_alignof T ->
  In (Aligned T A) Ts ->
  element_accepted (Aligned T A) = false /\
  Partial Ts sizes = None /\ Layout Ts sizes = None.
Proof.
  intros Hwf HA Hnz Hbad Hin.
  pose proof (override_rejected T A Hwf HA Hnz Hbad) as Hrej.
  split; [exact Hrej |].
  assert (Hall : forallb element_accepted Ts = false).
  { apply not_true_is_false. intros Hall.
    rewrite forallb_forall in Hall. specialize (Hall _ Hin). congruence. }
  unfold Partial, Layout, Layout_static_asserts.
  rewrite Hall, !andb_false_r. cbn. split; reflexivity.
Qed.

(** C8.  [Layout<char, Aligned<int, 32>, double>(3, 2, 4)]:
    [Alignment() == 32], the offsets of [char], [int] and [double] are
    [0], [32] and [40], and [AllocSize() == 72]. *)
Theorem C8_custom_alignment_scenario :
  exists L,
    Layout [Plain c_char; Aligned c_int 32; Plain c_double] [3; 2; 4]
      = Some L /\
    Alignment L = Some 32 /\
    Offset_of_type L c_char = Some 0 /\
    Offset_of_type L c_int = Some 32 /\
    Offset_of_type L c_double = Some 40 /\
    Offset L 0 = Some 0 /\ Offset L 1 = Some 32 /\ Offset L 2 = Some 40 /\
    AllocSize L = Some 72.
Proof.
  eexists. split; [reflexivity |]. repeat split; reflexivity.
Qed.

(** C10.  A descriptor built from the counts [(c_0, ..., c_{K-1})], each
    a [size_t] value, stores them unchanged: [Size<i>()] is [c_i] for
    [i < K] and is rejected otherwise, [Sizes()] is the list of counts in
    argument order, and running any sequence of member functions leaves the
    descriptor, hence the counts, as they were. *)
Theorem C10_counts_stored Ts sizes L :
  valid_counts sizes = true ->
  Partial Ts sizes = Some L ->
  size_ L = sizes /\
  (forall i, (i < length sizes)%nat ->
     exists c, nth_error sizes i = Some c /\ Size L i = Some c) /\
  (forall i, (length sizes <= i)%nat -> Size L i = None) /\
  Sizes L = Some sizes /\
  (forall qs, run_all qs L = L /\ Sizes (run_all qs L) = Some sizes).
Proof.
  intros Hcounts HP.
  pose proof (built_size_valid Ts sizes L HP Hcounts) as Hs.
  pose proof (built_NumSizes Ts sizes L HP) as Hn.
  assert (HSize : forall i, (i < length sizes)%nat ->
                            Size L i = nth_error sizes i).
  { intros i Hi. unfold Size. rewrite Hn, Hs.
    apply Nat.ltb_lt in Hi. now rewrite Hi. }
  assert (HSizes : Sizes L = Some sizes).
  { unfold Sizes. rewrite Hn. apply expand_seq. intros i Hi.
    cbn [Nat.add]. now apply HSize. }
  split; [exact Hs |]. split; [| split; [| split]].
  - intros i Hi. destruct (nth_error sizes i) as [c |] eqn:Hc.
    + exists c. split; [reflexivity |]. rewrite HSize by assumption. exact Hc.
    + apply nth_error_None in Hc. lia.
  - intros i Hi. unfold Size. rewrite Hn.
    apply Nat.ltb_ge in Hi. now rewrite Hi.
  - exact HSizes.
  - intros qs. rewrite run_all_id. split; [reflexivity | exact HSizes].
Qed.

Lemma C10_counts_stored_witness :
  size_ L_tutorial2 = sizes_tutorial2 /\
  (forall i, (i < length sizes_tutorial2)%nat ->
     exists c, nth_error sizes_tutorial2 i = Some c /\
               Size L_tutorial2 i = Some c) /\
  (forall i, (length sizes_tutorial2 <= i)%nat ->
             Size L_tutorial2 i = None) /\
  Sizes L_tutorial2 = Some sizes_tutorial2 /\
  (forall qs, run_all qs L_tutorial2 = L_tutorial2 /\
              Sizes (run_all qs L_tutorial2) = Some sizes_tutorial2).
Proof.
  apply (C10_counts_stored Ts_tutorial sizes_tutorial2 L_tutorial2);
    reflexivity.
Defined.

(** * Further properties of the header *)

(** ** [IsPow2] and [Align] on all of [size_t] *)

(** X1.  On [size_t], [IsPow2(n)] holds exactly for [n = 0] and for the
    powers of two. *)
Theorem X1_IsPow2_characterised n :
  in_range n -> (IsPow2 n = true <-> n = 0 \/ is_pow2 n).
Proof.
  intros Hn. split.
  - intros Hp. destruct (Z.eq_dec n 0) as [E | NE]; [now left | right].
    now apply IsPow2_inv.
  - intros [-> | (k & Hk & ->)]; [reflexivity | now apply IsPow2_pow2].
Qed.

Lemma X1_IsPow2_characterised_witness :
  in_range 12 /\ (IsPow2 12 = true <-> 12 = 0 \/ is_pow2 12).
Proof.
  split; [in_range_tac |]. apply (X1_IsPow2_characterised 12). in_range_tac.
Defined.

(** X2.  For a power of two [m], [Align(n, m)] leaves [n] unchanged exactly
    when [n] is already a multiple of [m], whatever the size of [n]; hence
    aligning twice is aligning once. *)
Theorem X2_Align_fixed_points n m :
  in_range n -> is_pow2 m ->
  (Align n m = n <-> n mod m = 0) /\ Align (Align n m) m = Align n m.
Proof.
  intros Hn (k & Hk & ->).
  assert (Hm : 0 < 2 ^ k) by (apply pow2_pos; lia).
  assert (Hfix : forall x, in_range x -> x mod 2 ^ k = 0 ->
                           Align x (2 ^ k) = x).
  { intros x Hx Hmod.
    assert (Hroom : x + 2 ^ k - 1 < modulus).
    { pose proof (modulus_multiple k Hk) as HM. unfold in_range in Hx.
      apply Z.mod_divide in Hmod; [| lia]. destruct Hmod as [q ->].
      rewrite HM in *. set (M := 2 ^ (bits - k)) in *.
      assert (q < M) by (apply (Z.mul_lt_mono_pos_r (2 ^ k)); lia).
      assert (q * 2 ^ k <= (M - 1) * 2 ^ k)
        by (apply Z.mul_le_mono_nonneg_r; lia).
      lia. }
    rewrite Align_exact by (assumption || lia).
    unfold Align_spec, ceil_div. rewrite Hmod. cbn [Z.eqb].
    pose proof (Z.div_mod x (2 ^ k) ltac:(lia)). lia. }
  split.
  - split.
    + intros <-. apply Align_multiple. lia.
    + now apply Hfix.
  - apply Hfix; [apply Align_in_range | apply Align_multiple]; lia.
Qed.

Lemma X2_Align_fixed_points_witness :
  (Align 24 8 = 24 <-> 24 mod 8 = 0) /\ Align (Align 24 8) 8 = Align 24 8.
Proof.
  apply (X2_Align_fixed_points 24 8).
  - in_range_tac.
  - exists 3. split; [unfold bits; lia | reflexivity].
Defined.

(** X3.  For a power of two [m], [Align(n, m)] is [ceil(n/m) * m] modulo
    [2^64]; when [n + m - 1] overflows [size_t] the result is [0]. *)
Theorem X3_Align_overflow n m :
  in_range n -> is_pow2 m ->
  Align n m = wrap (Align_spec n m) /\
  (modulus <= n + m - 1 -> Align n m = 0).
Proof.
  intros Hn (k & Hk & ->). split; [now apply Align_wraps |].
  intros Hover. rewrite Align_round_down by lia.
  assert (Hm : 0 < 2 ^ k) by (apply pow2_pos; lia).
  assert (Hle : 2 ^ k <= modulus).
  { pose proof (modulus_multiple k Hk) as HM.
    assert (0 < 2 ^ (bits - k)) by (apply pow2_pos; lia). nia. }
  assert (Hw : wrap (n + 2 ^ k - 1) = n + 2 ^ k - 1 - modulus).
  { unfold wrap. symmetry. apply (Z.mod_unique _ _ 1).
    - left. unfold in_range in Hn. lia.
    - lia. }
  rewrite Hw, Z.div_small; [reflexivity |]. unfold in_range in Hn. lia.
Qed.

Lemma X3_Align_overflow_witness :
  Align SIZE_MAX 4 = wrap (Align_spec SIZE_MAX 4) /\
  (modulus <= SIZE_MAX + 4 - 1 -> Align SIZE_MAX 4 = 0).
Proof.
  apply (X3_Align_overflow SIZE_MAX 4).
  - in_range_tac.
  - exists 2. split; [unfold bits; lia | reflexivity].
Defined.

(** X4.  An array whose alignment is zero is placed at offset [0],
    whatever precedes it: [Align(n, 0)] is [0] for every [n]. *)
Theorem X4_zero_alignment_offset Ts sizes L i e :
  Partial Ts sizes = Some L -> (0 < i < NumOffsets L)%nat ->
  nth_error Ts i = Some e -> AlignOf e = 0 ->
  (forall n, Align n 0 = 0) /\ Offset L i = Some 0.
Proof.
  intros HP [Hi0 HiM] He Hz.
  assert (HA : forall n, Align n 0 = 0).
  { intros n. unfold Align, land.
    replace (lnot (sub 0 1)) with 0 by reflexivity. apply Z.land_0_r. }
  split; [exact HA |].
  destruct i as [| i]; [lia |].
  destruct (Offset_step Ts sizes L HP i HiM)
    as (e0 & c & e' & _ & _ & He' & Heq).
  destruct (Offset_defined Ts sizes L HP i) as [o Ho]; [lia |].
  rewrite Ho in Heq. rewrite Heq. f_equal.
  assert (e' = e) by congruence. subst e'. rewrite Hz. apply HA.
Qed.

Lemma X4_zero_alignment_offset_witness :
  (forall n, Align n 0 = 0) /\
  Offset (mkLayoutImpl [Plain c_char; Aligned c_int 0] 1 2 [3]) 1 = Some 0.
Proof.
  apply (X4_zero_alignment_offset [Plain c_char; Aligned c_int 0] [3]
           (mkLayoutImpl [Plain c_char; Aligned c_int 0] 1 2 [3]) 1
           (Aligned c_int 0)).
  - reflexivity.
  - cbn. lia.
  - reflexivity.
  - reflexivity.
Defined.

(** ** Lookup by type *)

Lemma CType_eqb_eq a b : CType_eqb a b = true <-> a = b.
Proof.
  unfold CType_eqb. rewrite !andb_true_iff, String.eqb_eq, !Z.eqb_eq,
    !Bool.eqb_true_iff.
  destruct a, b; cbn. split.
  - intros [[[[-> ->] ->] ->] ->]. reflexivity.
  - intros [= -> -> -> -> ->]. auto.
Qed.

Lemma existsb_CType_In T ts : existsb (CType_eqb T) ts = true <-> In T ts.
Proof.
  rewrite existsb_exists. split.
  - intros (x & Hin & Heq). apply CType_eqb_eq in Heq. now subst.
  - intros Hin. exists T. split; [assumption | now apply CType_eqb_eq].
Qed.

(** [Find] succeeds exactly on a needle that occurs once, with its
    position. *)
Lemma Find_unique T ts n :
  Find T ts = Some n <-> (forall k, nth_error ts k = Some T <-> k = n).
Proof.
  revert n. induction ts as [| t rest IH]; intros n; cbn [Find].
  - split; [discriminate |]. intros H.
    pose proof (proj2 (H n) eq_refl) as Hn. destruct n; discriminate.
  - destruct (CType_eqb T t) eqn:Et.
    + apply CType_eqb_eq in Et. subst t.
      destruct (existsb (CType_eqb T) rest) eqn:Ex.
      * split; [discriminate |]. intros H.
        apply existsb_CType_In, In_nth_error in Ex. destruct Ex as [j Hj].
        pose proof (proj1 (H O) eq_refl). pose proof (proj1 (H (S j)) Hj).
        lia.
      * split.
        -- intros [= <-]. intros [| j]; cbn; split; trivial; try discriminate.
           intros Hj. apply nth_error_In, existsb_CType_In in Hj. congruence.
        -- intros H. f_equal. exact (proj1 (H O) eq_refl).
    + assert (Hne : Some t <> Some T).
      { intros [= ->]. assert (CType_eqb T T = true) by now apply CType_eqb_eq.
        congruence. }
      split.
      * destruct (Find T rest) as [m |] eqn:Hf; [| discriminate].
        intros [= <-]. pose proof (proj1 (IH m) eq_refl) as Hm.
        intros [| j]; cbn.
        -- split; [intros; contradiction | discriminate].
        -- rewrite Hm. lia.
      * intros H. destruct n as [| m].
        -- exfalso. apply Hne. exact (proj2 (H O) eq_refl).
        -- assert (Hm : Find T rest = Some m).
           { apply IH. intros j. specialize (H (S j)). cbn in H.
             rewrite H. lia. }
           now rewrite Hm.
Qed.

Lemma ElementType_nth L k :
  ElementType L k = nth_error (map Type_ (Elements L)) k.
Proof. unfold ElementType. symmetry. apply nth_error_map. Qed.

Lemma ElementIndex_unique L T n :
  ElementIndex L T = Some n <->
  (forall k, ElementType L k = Some T <-> k = n).
Proof.
  unfold ElementIndex.
  assert (Hiff : (forall k, ElementType L k = Some T <-> k = n) <->
                 Find T (map Type_ (Elements L)) = Some n).
  { rewrite Find_unique. split; intros H k; specialize (H k);
      rewrite ElementType_nth in *; exact H. }
  rewrite Hiff.
  destruct (existsb _ _) eqn:Ex; [reflexivity |].
  split; [discriminate |]. intros Hf. exfalso.
  pose proof (proj1 (Find_unique _ _ _) Hf n) as Hn.
  pose proof (proj2 Hn eq_refl) as Hin.
  apply nth_error_In, existsb_CType_In in Hin. congruence.
Qed.

(** X5.  [ElementIndex<T>()] succeeds exactly when [T] is the element type
    of one array and no other, and is then the index of that array; lookup
    of a type that is absent ("Type not found") or repeated ("Duplicate
    element type") is rejected, and so are [Offset<T>()], [Size<T>()],
    [Pointer<T>(p)] and [Slice<T>(p)], which otherwise agree with the
    members taking the index. *)
Theorem X5_lookup_by_type L T :
  (forall n, ElementIndex L T = Some n <->
             (forall k, ElementType L k = Some T <-> k = n)) /\
  ((forall k, ElementType L k <> Some T) -> ElementIndex L T = None) /\
  (forall i j, i <> j -> ElementType L i = Some T ->
               ElementType L j = Some T -> ElementIndex L T = None) /\
  (forall n, ElementIndex L T = Some n ->
             Offset_of_type L T = Offset L n /\
             Size_of_type L T = Size L n /\
             (forall p, Pointer_of_type L T p = Pointer L n p) /\
             (forall p, Slice_of_type L T p = Slice L n p)) /\
  (ElementIndex L T = None ->
   Offset_of_type L T = None /\ Size_of_type L T = None /\
   (forall p, Pointer_of_type L T p = None) /\
   (forall p, Slice_of_type L T p = None)).
Proof.
  split; [intros n; apply ElementIndex_unique |].
  split; [| split; [| split]].
  - intros Habs. destruct (ElementIndex L T) as [n |] eqn:E; [| reflexivity].
    exfalso. apply (Habs n). now apply (ElementIndex_unique L T n).
  - intros i j Hne Hi Hj.
    destruct (ElementIndex L T) as [n |] eqn:E; [| reflexivity].
    pose proof (proj1 (ElementIndex_unique L T n) E) as H.
    apply H in Hi, Hj. congruence.
  - intros n E.
    unfold Offset_of_type, Size_of_type, Pointer_of_type, Slice_of_type.
    rewrite E. auto.
  - intros E.
    unfold Offset_of_type, Size_of_type, Pointer_of_type, Slice_of_type.
    rewrite E. auto.
Qed.

(** ** Construction and its failures *)

(** X7.  A reference type or a volatile-qualified type is not a legal
    element type, plain or under [Aligned]: no descriptor can be built over
    a type list that contains one. *)
Theorem X7_reference_volatile_rejected Ts sizes e :
  In e Ts ->
  ty_is_reference (Type_ e) = true \/ ty_is_volatile (Type_ e) = true ->
  IsLegalElementType e = false /\
  Partial Ts sizes = None /\ Layout Ts sizes = None.
Proof.
  intros Hin Hbad.
  assert (Hill : IsLegalElementType e = false).
  { unfold IsLegalElementType.
    destruct Hbad as [H | H]; rewrite H; cbn;
      rewrite ?andb_false_r; reflexivity. }
  split; [exact Hill |].
  assert (Hall : forallb element_accepted Ts = false).
  { apply not_true_is_false. intros Hall.
    rewrite forallb_forall in Hall. specialize (Hall _ Hin).
    unfold element_accepted in Hall. rewrite Hill, andb_false_r in Hall.
    discriminate. }
  unfold Partial, Layout, Layout_static_asserts.
  rewrite Hall, !andb_false_r. cbn. split; reflexivity.
Qed.

Lemma X7_reference_volatile_rejected_witness :
  IsLegalElementType (Plain (mkCType "volatile int" 4 4 false true)) = false /\
  Partial [Plain c_char; Plain (mkCType "volatile int" 4 4 false true)] [3]
    = None /\
  Layout [Plain c_char; Plain (mkCType "volatile int" 4 4 false true)] [3]
    = None.
Proof.
  apply (X7_reference_volatile_rejected
           [Plain c_char; Plain (mkCType "volatile int" 4 4 false true)] [3]
           (Plain (mkCType "volatile int" 4 4 false true))).
  - right. left. reflexivity.
  - right. reflexivity.
Defined.

(** ** Pack expansions *)

Lemma expand_map {A : Type} (f : nat -> option A) idx l :
  expand f idx = Some l <-> map f idx = map Some l.
Proof.
  revert l. induction idx as [| i idx IH]; intros l; cbn [expand map].
  - destruct l; cbn; split; congruence.
  - destruct (f i) as [x |] eqn:Hf.
    + destruct (expand f idx) as [xs |] eqn:He.
      * pose proof (proj1 (IH xs) eq_refl) as Hxs. split.
        -- intros [= <-]. cbn. now rewrite Hxs.
        -- destruct l as [| y l']; cbn; [discriminate |].
           intros [= -> Hm]. rewrite Hxs in Hm.
           f_equal. f_equal. revert Hm. clear. revert l'.
           induction xs as [| a xs IHx]; intros [| b l']; cbn;
             try discriminate; trivial.
           intros [= -> Hm]. f_equal. auto.
      * split; [discriminate |].
        destruct l as [| y l']; cbn; [discriminate |].
        intros [= _ Hm]. apply IH in Hm. discriminate.
    + split; [discriminate |]. destruct l; cbn; discriminate.
Qed.

Lemma expand_defined {A : Type} (f : nat -> option A) idx :
  (forall i, In i idx -> f i <> None) -> exists l, expand f idx = Some l.
Proof.
  induction idx as [| i idx IH]; intros H; cbn [expand]; [eauto |].
  destruct (f i) as [x |] eqn:Hf.
  - destruct IH as [l ->]; [intros j Hj; apply H; now right | eauto].
  - exfalso. apply (H i); [now left | assumption].
Qed.

Lemma expand_seq_nth {A : Type} (f : nat -> option A) n l :
  expand f (seq 0 n) = Some l ->
  length l = n /\ forall i, (i < n)%nat -> nth_error l i = f i.
Proof.
  intros H. apply expand_map in H.
  assert (Hlen : length l = n).
  { apply (f_equal (@length _)) in H.
    now rewrite !length_map, length_seq in H. }
  split; [exact Hlen |]. intros i Hi.
  assert (Hn : nth_error (map Some l) i = nth_error (map f (seq 0 n)) i)
    by now rewrite H.
  rewrite !nth_error_map in Hn.
  rewrite nth_error_seq in Hn.
  apply Nat.ltb_lt in Hi. rewrite Hi in Hn. cbn in Hn.
  destruct (nth_error l i) as [x |] eqn:Hx; cbn in Hn.
  - now injection Hn.
  - discriminate.
Qed.

(** ** The batch members and pointers *)



Lemma Alignment_facts Ts sizes L :
  Partial Ts sizes = Some L ->
  exists A, Alignment L = Some A /\
            (forall e, In e Ts -> AlignOf e <= A) /\
            (valid_types Ts = true -> is_pow2 A).
Proof.
  intros HP. pose proof (built_nonempty Ts sizes L HP) as Hne.
  pose proof (built_Elements Ts sizes L HP) as HE.
  destruct Ts as [| t Ts']; [cbn in Hne; lia |].
  exists (Max (AlignOf t) (map AlignOf Ts')). split; [| split].
  - unfold Alignment. now rewrite HE.
  - intros e He. apply Max_upper.
    change (AlignOf t :: map AlignOf Ts') with (map AlignOf (t :: Ts')).
    now apply in_map.
  - intros Hvalid.
    pose proof (Max_In (AlignOf t) (map AlignOf Ts')) as Hin.
    change (AlignOf t :: map AlignOf Ts') with (map AlignOf (t :: Ts')) in Hin.
    apply in_map_iff in Hin. destruct Hin as (e & He & Hin).
    destruct (In_nth_error _ _ Hin) as [n Hn].
    rewrite <- He. exact (built_is_pow2 _ sizes L HP Hvalid n e Hn).
Qed.

Lemma Pointer_defined Ts sizes L A N p :
  valid_types Ts = true -> Partial Ts sizes = Some L ->
  Alignment L = Some A -> (N < NumOffsets L)%nat -> p mod A = 0 ->
  exists o, Offset L N = Some o /\ Pointer L N p = Some (p + o).
Proof.
  intros Hvalid HP HA HN Hp.
  destruct (Alignment_facts Ts sizes L HP) as (A' & HA' & _ & Hpow).
  assert (A' = A) by congruence. subst A'.
  pose proof (is_pow2_pos _ (Hpow Hvalid)) as HApos.
  destruct (Offset_defined Ts sizes L HP N HN) as [o Ho].
  exists o. split; [exact Ho |].
  unfold Pointer. rewrite HA, Ho, Hp, Z.eqb_refl.
  destruct (Z.eqb_spec A 0); [lia | reflexivity].
Qed.

Lemma addresses_representable_spec L p :
  addresses_representable L p = true ->
  0 <= p /\
  forall N o, (N < NumOffsets L)%nat -> Offset L N = Some o ->
              p + o < modulus.
Proof.
  unfold addresses_representable. rewrite andb_true_iff, forallb_forall.
  intros [H0 Hall]. split; [now apply Z.leb_le |].
  intros N o HN Ho. specialize (Hall N). rewrite Ho in Hall.
  apply Z.ltb_lt, Hall, in_seq. lia.
Qed.

(** X9.  In a valid descriptor, for a buffer [p] aligned to [Alignment()]
    and a computable index [N] whose address [p + Offset<N>()] is
    representable, [Pointer<N>(p)] is that address, and it is aligned for
    the element type of array [N]: to its natural alignment, or to its
    override if it has one.  A buffer that is not aligned to [Alignment()]
    trips the assertion, and an index [N >= M] is rejected. *)
Theorem X9_Pointer_aligned Ts sizes L A N e o p :
  valid_types Ts = true -> Partial Ts sizes = Some L ->
  Alignment L = Some A -> nth_error Ts N = Some e -> Offset L N = Some o ->
  0 <= p -> p + o < modulus ->
  (p mod A = 0 ->
   Pointer L N p = Some (p + o) /\ in_range (p + o) /\
   (p + o) mod match e with Plain T => ty_alignof T | Aligned _ a => a end
   = 0) /\
  (p mod A <> 0 -> Pointer L N p = None) /\
  (forall N' q, (NumOffsets L <= N')%nat -> Pointer L N' q = None).
Proof.
  intros Hvalid HP HA He Ho Hp0 Hfit.
  change (match e with Plain T => ty_alignof T | Aligned _ a => a end)
    with (AlignOf e).
  destruct (Alignment_facts Ts sizes L HP) as (A' & HA' & Hup & Hpow).
  assert (A' = A) by congruence. subst A'. specialize (Hpow Hvalid).
  pose proof (is_pow2_pos _ Hpow) as HApos.
  pose proof (Offset_in_range Ts sizes L HP Hvalid N o Ho) as Hor.
  split; [| split].
  - intros Hp. split; [| split].
    + unfold Pointer. rewrite HA, Ho, Hp, Z.eqb_refl.
      destruct (Z.eqb_spec A 0); [lia | reflexivity].
    + unfold in_range in *. lia.
    + pose proof (built_is_pow2 Ts sizes L HP Hvalid N e He) as Hpe.
      pose proof (is_pow2_pos _ Hpe) as Hepos.
      pose proof (Offset_multiple Ts sizes L HP Hvalid N o e Ho He) as Ho0.
      pose proof (is_pow2_divides _ _ Hpe Hpow
                    (Hup e (nth_error_In _ _ He))) as Hdiv.
      apply Z.mod_divide in Hdiv, Hp, Ho0; try lia.
      apply Z.mod_divide; [lia |].
      apply Z.divide_add_r; [| exact Ho0].
      eapply Z.divide_trans; eassumption.
  - intros Hp. unfold Pointer. rewrite HA, Ho.
    destruct (Z.eqb_spec (p mod A) 0); [contradiction |].
    now rewrite andb_false_r.
  - intros N' q HN'. unfold Pointer.
    rewrite (Offset_rejected Ts sizes L HP N' HN').
    now destruct (Alignment L).
Qed.

Lemma X9_Pointer_aligned_witness :
  (4096 mod 32 = 0 ->
   Pointer L_custom 1 4096 = Some (4096 + 32) /\ in_range (4096 + 32) /\
   (4096 + 32) mod match Aligned c_int 32 with
                   | Plain T => ty_alignof T
                   | Aligned _ a => a
                   end = 0) /\
  (4096 mod 32 <> 0 -> Pointer L_custom 1 4096 = None) /\
  (forall N' q, (NumOffsets L_custom <= N')%nat ->
                Pointer L_custom N' q = None).
Proof.
  apply (X9_Pointer_aligned Ts_custom sizes_auto L_custom 32 1
           (Aligned c_int 32) 32 4096).
  - reflexivity.
  - reflexivity.
  - reflexivity.
  - reflexivity.
  - reflexivity.
  - lia.
  - rewrite modulus_val. lia.
Defined.

(** X10.  In a valid descriptor built from [size_t] counts, and for a
    buffer aligned to [Alignment()] in which the addresses of all
    computable arrays are representable, [Slice<N>(p)] is the pair of
    [Pointer<N>(p)] and the count of array [N] for [N < K]; it is rejected
    for [N >= K], also for [N = K < N_types], where the pointer exists but
    the count is unknown.  [Pointers(p)] returns the [M] pointers and
    [Slices(p)] the [K] views, in index order. *)
Theorem X10_views Ts sizes L A p :
  valid_types Ts = true -> valid_counts sizes = true ->
  Partial Ts sizes = Some L ->
  Alignment L = Some A -> p mod A = 0 ->
  addresses_representable L p = true ->
  (forall N, (N < length sizes)%nat ->
     exists o c, Offset L N = Some o /\ nth_error sizes N = Some c /\
                 in_range (p + o) /\ in_range c /\
                 Pointer L N p = Some (p + o) /\
                 Slice L N p = Some (p + o, c)) /\
  (forall N, (length sizes <= N)%nat -> Slice L N p = None) /\
  ((length sizes < length Ts)%nat ->
   Pointer L (length sizes) p <> None /\ Slice L (length sizes) p = None) /\
  exists qs vs,
    Pointers L p = Some qs /\ length qs = NumOffsets L /\
    (forall N, (N < NumOffsets L)%nat -> nth_error qs N = Pointer L N p) /\
    Slices L p = Some vs /\ length vs = length sizes /\
    (forall N, (N < length sizes)%nat -> nth_error vs N = Slice L N p) /\
    map snd vs = sizes.
Proof.
  intros Hvalid Hcounts HP HA Hp Haddr.
  destruct (addresses_representable_spec L p Haddr) as [Hp0 Hrep].
  pose proof (built_NumOffsets Ts sizes L HP) as HM.
  pose proof (built_NumSizes Ts sizes L HP) as HK.
  pose proof (built_prefix Ts sizes L HP) as Hpre.
  pose proof (built_nonempty Ts sizes L HP) as Hne.
  assert (HPtr : forall N, (N < NumOffsets L)%nat ->
            exists o, Offset L N = Some o /\ Pointer L N p = Some (p + o)).
  { intros N HN.
    exact (Pointer_defined Ts sizes L A N p Hvalid HP HA HN Hp). }
  assert (HSl : forall N, (N < length sizes)%nat ->
     exists o c, Offset L N = Some o /\ nth_error sizes N = Some c /\
                 in_range (p + o) /\ in_range c /\
                 Pointer L N p = Some (p + o) /\
                 Slice L N p = Some (p + o, c)).
  { intros N HN. destruct (HPtr N) as (o & Ho & Hq); [lia |].
    destruct (nth_error sizes N) as [c |] eqn:Hc.
    2:{ apply nth_error_None in Hc. lia. }
    exists o, c. split; [exact Ho |]. split; [reflexivity |].
    split.
    { pose proof (Offset_in_range Ts sizes L HP Hvalid N o Ho) as Hor.
      pose proof (Hrep N o ltac:(lia) Ho). unfold in_range in *. lia. }
    split; [exact (valid_counts_nth _ _ _ Hcounts Hc) |].
    split; [exact Hq |].
    unfold Slice, Size.
    rewrite Hq, HK, (built_size_valid Ts sizes L HP Hcounts), Hc.
    apply Nat.ltb_lt in HN. now rewrite HN. }
  assert (HSn : forall N, (length sizes <= N)%nat -> Slice L N p = None).
  { intros N HN. unfold Slice, Size. rewrite HK.
    apply Nat.ltb_ge in HN. rewrite HN. now destruct (Pointer L N p). }
  split; [exact HSl |]. split; [exact HSn |]. split.
  { intros Hlt. split; [| now apply HSn].
    destruct (HPtr (length sizes)) as (o & _ & ->); [lia | discriminate]. }
  destruct (expand_defined (fun N => Pointer L N p) (seq 0 (NumOffsets L)))
    as [qs Hqs].
  { intros N HN. apply in_seq in HN.
    destruct (HPtr N) as (o & _ & ->); [lia | discriminate]. }
  destruct (expand_defined (fun N => Slice L N p) (seq 0 (NumSizes L)))
    as [vs Hvs].
  { intros N HN. apply in_seq in HN.
    destruct (HSl N) as (o & c & _ & _ & _ & _ & _ & ->);
      [lia | discriminate]. }
  destruct (expand_seq_nth _ _ _ Hqs) as [Hql Hqn].
  destruct (expand_seq_nth _ _ _ Hvs) as [Hvl Hvn].
  rewrite HK in Hvl, Hvn.
  exists qs, vs. unfold Pointers, Slices.
  repeat (split; [assumption |]).
  apply nth_error_ext. intros N. rewrite nth_error_map.
  destruct (Nat.ltb_spec N (length sizes)) as [HN | HN].
  - rewrite Hvn by assumption.
    destruct (HSl N HN) as (o & c & _ & Hc & _ & _ & _ & ->). now rewrite Hc.
  - rewrite (proj2 (nth_error_None vs N)) by lia.
    symmetry. now apply nth_error_None.
Qed.

Lemma X10_views_witness :
  (forall N, (N < length sizes_tutorial2)%nat ->
     exists o c, Offset L_tutorial2 N = Some o /\
                 nth_error sizes_tutorial2 N = Some c /\
                 in_range (64 + o) /\ in_range c /\
                 Pointer L_tutorial2 N 64 = Some (64 + o) /\
                 Slice L_tutorial2 N 64 = Some (64 + o, c)) /\
  (forall N, (length sizes_tutorial2 <= N)%nat ->
             Slice L_tutorial2 N 64 = None) /\
  ((length sizes_tutorial2 < length Ts_tutorial)%nat ->
   Pointer L_tutorial2 (length sizes_tutorial2) 64 <> None /\
   Slice L_tutorial2 (length sizes_tutorial2) 64 = None) /\
  exists qs vs,
    Pointers L_tutorial2 64 = Some qs /\
    length qs = NumOffsets L_tutorial2 /\
    (forall N, (N < NumOffsets L_tutorial2)%nat ->
               nth_error qs N = Pointer L_tutorial2 N 64) /\
    Slices L_tutorial2 64 = Some vs /\ length vs = length sizes_tutorial2 /\
    (forall N, (N < length sizes_tutorial2)%nat ->
               nth_error vs N = Slice L_tutorial2 N 64) /\
    map snd vs = sizes_tutorial2.
Proof.
  apply (X10_views Ts_tutorial sizes_tutorial2 L_tutorial2 8 64);
    reflexivity.
Defined.

(** ** Size of the allocation and padding *)

Section Footprint.

Variables (Ts : list Element) (sizes : list Z) (L : LayoutImpl).
Hypothesis Hvalid : valid_types Ts = true.
Hypothesis Hcounts : valid_counts sizes = true.
Hypothesis HP : Partial Ts sizes = Some L.

Lemma end_spec_le_next i :
  end_spec Ts sizes i <= Offset_spec Ts sizes (S i).
Proof. apply Offset_spec_step_le; assumption. Qed.

Lemma Offset_spec_le_end i : Offset_spec Ts sizes i <= end_spec Ts sizes i.
Proof.
  unfold end_spec. pose proof (size_at_nonneg Ts Hvalid i).
  pose proof (count_at_nonneg sizes Hcounts i). nia.
Qed.

Lemma end_spec_mono i j :
  (i <= j)%nat -> end_spec Ts sizes i <= end_spec Ts sizes j.
Proof.
  induction 1 as [| j _ IH]; [lia |].
  pose proof (end_spec_le_next j). pose proof (Offset_spec_le_end (S j)). lia.
Qed.

Lemma payload_le_Offset_spec i : payload Ts sizes i <= Offset_spec Ts sizes i.
Proof.
  induction i as [| i IH]; [cbn; lia |].
  pose proof (end_spec_le_next i). unfold end_spec in *.
  cbn [payload]. lia.
Qed.

(** With all counts known and a representable end of the last array,
    [AllocSize()] is that end. *)
Lemma AllocSize_exact_end :
  length sizes = length Ts ->
  end_spec Ts sizes (length Ts - 1) < modulus ->
  AllocSize L = Some (end_spec Ts sizes (length Ts - 1)).
Proof.
  intros Hlen Hfit.
  pose proof (built_nonempty Ts sizes L HP) as Hne.
  pose proof (Offset_spec_le_end (length Ts - 1)) as Hle.
  pose proof (Offset_spec_nonneg Ts sizes Hvalid Hcounts (length Ts - 1))
    as H0.
  assert (Ho : Offset L (length Ts - 1)
               = Some (Offset_spec Ts sizes (length Ts - 1))).
  { apply Offset_refines; trivial.
    - rewrite (built_NumOffsets Ts sizes L HP). lia.
    - unfold fits. lia. }
  unfold end_spec in *. unfold size_at, count_at in *.
  destruct (nth_error Ts (length Ts - 1)) as [e |] eqn:He.
  2:{ apply nth_error_None in He. lia. }
  destruct (nth_error sizes (length Ts - 1)) as [c |] eqn:Hc.
  2:{ apply nth_error_None in Hc. lia. }
  unfold AllocSize, ElementType.
  rewrite (built_NumTypes Ts sizes L HP), (built_NumSizes Ts sizes L HP),
    (built_Elements Ts sizes L HP).
  rewrite Hlen, Nat.eqb_refl, Ho, He, (built_size_nth Ts sizes L HP _ _ Hc).
  cbn [option_map]. rewrite SizeOf_Type, mul_wrap_r. f_equal.
  unfold add, mul.
  destruct (valid_types_nth _ _ _ Hvalid He) as [Hwf _].
  pose proof (wf_Element_SizeOf_range e Hwf) as Hs.
  pose proof (valid_counts_nth _ _ _ Hcounts Hc) as Hcr.
  unfold in_range in Hcr. assert (0 <= SizeOf e * c) by nia.
  rewrite (wrap_small (SizeOf e * c)) by (unfold in_range; lia).
  apply wrap_small. unfold in_range. lia.
Qed.

End Footprint.

(** X11.  With all counts known and the end of the last array
    representable in [size_t], every array lies inside the first
    [AllocSize()] bytes: [0 <= Offset(i)] and
    [Offset(i) + size(i) * count(i) <= AllocSize()] for every [i < N];
    and [AllocSize()] is at least the sum of the array sizes. *)
Theorem X11_arrays_within_AllocSize Ts sizes L :
  valid_types Ts = true -> valid_counts sizes = true ->
  Layout Ts sizes = Some L ->
  end_spec Ts sizes (length Ts - 1) < modulus ->
  exists A,
    AllocSize L = Some A /\
    payload Ts sizes (length Ts) <= A /\
    forall i, (i < length Ts)%nat ->
      exists o, Offset L i = Some o /\ 0 <= o /\
                o + size_at Ts i * count_at sizes i <= A.
Proof.
  intros Hvalid Hcounts HL Hfit.
  pose proof (Layout_Partial _ _ _ HL) as HP.
  pose proof (Layout_length _ _ _ HL) as Hlen.
  pose proof (built_nonempty Ts sizes L HP) as Hne.
  exists (end_spec Ts sizes (length Ts - 1)).
  split; [now apply AllocSize_exact_end |]. split.
  - replace (length Ts) with (S (length Ts - 1)) at 1 by lia.
    cbn [payload]. unfold end_spec.
    pose proof (payload_le_Offset_spec Ts sizes Hvalid (length Ts - 1)).
    lia.
  - intros i Hi. exists (Offset_spec Ts sizes i).
    pose proof (end_spec_mono Ts sizes Hvalid Hcounts i (length Ts - 1)
                  ltac:(lia)) as Hmono.
    pose proof (Offset_spec_le_end Ts sizes Hvalid Hcounts i) as Hle.
    pose proof (Offset_spec_nonneg Ts sizes Hvalid Hcounts i) as H0.
    split; [| split; [exact H0 | exact Hmono]].
    apply Offset_refines; trivial.
    + rewrite (built_NumOffsets Ts sizes L HP). lia.
    + unfold fits. lia.
Qed.

Lemma X11_arrays_within_AllocSize_witness :
  exists A,
    AllocSize L_custom = Some A /\
    payload Ts_custom sizes_auto (length Ts_custom) <= A /\
    forall i, (i < length Ts_custom)%nat ->
      exists o, Offset L_custom i = Some o /\ 0 <= o /\
                o + size_at Ts_custom i * count_at sizes_auto i <= A.
Proof.
  apply (X11_arrays_within_AllocSize Ts_custom sizes_auto L_custom).
  - reflexivity.
  - reflexivity.
  - reflexivity.
  - vm_compute. reflexivity.
Defined.

Lemma Align_spec_fixed x a : 0 < a -> (Align_spec x a = x <-> x mod a = 0).
Proof.
  intros Ha. split.
  - intros <-. now apply Align_spec_multiple.
  - intros Hmod. unfold Align_spec, ceil_div. rewrite Hmod. cbn [Z.eqb].
    pose proof (Z.div_mod x a ltac:(lia)). lia.
Qed.



Lemma nonincreasing_nth l i a b :
  nonincreasing l = true -> nth_error l i = Some a ->
  nth_error l (S i) = Some b -> b <= a.
Proof.
  revert i. induction l as [| x l IH]; intros i Hs Ha Hb.
  - destruct i; discriminate.
  - destruct l as [| y l']; [destruct i; discriminate |].
    cbn [nonincreasing] in Hs. apply andb_true_iff in Hs.
    destruct Hs as [Hyx Hs]. destruct i as [| i].
    + cbn in Ha, Hb. injection Ha as <-. injection Hb as <-.
      now apply Z.leb_le.
    + exact (IH i Hs Ha Hb).
Qed.

Section NoPadding.

Variables (Ts : list Element) (sizes : list Z) (L : LayoutImpl).
Hypothesis Hvalid : valid_types Ts = true.
Hypothesis Hcounts : valid_counts sizes = true.
Hypothesis HP : Partial Ts sizes = Some L.
Hypothesis Hsz : sizes_aligned Ts = true.
Hypothesis Hdesc : nonincreasing (map AlignOf Ts) = true.

Lemma alignment_at_pow2 i : is_pow2 (alignment_at Ts i).
Proof.
  unfold alignment_at. destruct (nth_error Ts i) as [e |] eqn:He.
  - exact (built_is_pow2 Ts sizes L HP Hvalid i e He).
  - exists 0. split; [unfold bits; lia | reflexivity].
Qed.

Lemma alignment_at_desc i : alignment_at Ts (S i) <= alignment_at Ts i.
Proof.
  unfold alignment_at.
  destruct (nth_error Ts (S i)) as [e' |] eqn:He'.
  - destruct (nth_error Ts i) as [e |] eqn:He.
    + apply (nonincreasing_nth (map AlignOf Ts) i); trivial;
        rewrite nth_error_map; [now rewrite He | now rewrite He'].
    + apply nth_error_None in He.
      assert (nth_error Ts (S i) <> None) by congruence.
      apply nth_error_Some in H. lia.
  - pose proof (alignment_at_pos Ts Hvalid i) as H.
    unfold alignment_at in H. lia.
Qed.

Lemma size_at_aligned i : size_at Ts i mod alignment_at Ts i = 0.
Proof.
  unfold size_at, alignment_at.
  destruct (nth_error Ts i) as [e |] eqn:He; [| reflexivity].
  unfold sizes_aligned in Hsz. rewrite forallb_forall in Hsz.
  apply Z.eqb_eq, Hsz. eapply nth_error_In, He.
Qed.

(** With alignments that do not grow, the exact layout has no padding. *)
Lemma Offset_spec_payload i :
  Offset_spec Ts sizes i = payload Ts sizes i /\
  payload Ts sizes i mod alignment_at Ts i = 0.
Proof.
  induction i as [| i [IHo IHm]].
  - split; [reflexivity |]. apply Z.mod_0_l.
    pose proof (alignment_at_pos Ts Hvalid 0). lia.
  - pose proof (alignment_at_pos Ts Hvalid i) as Hai.
    pose proof (alignment_at_pos Ts Hvalid (S i)) as Has.
    pose proof (is_pow2_divides _ _ (alignment_at_pow2 (S i))
                  (alignment_at_pow2 i) (alignment_at_desc i)) as Hdiv.
    pose proof (size_at_aligned i) as Hs.
    assert (Hm : payload Ts sizes (S i) mod alignment_at Ts (S i) = 0).
    { cbn [payload]. apply Z.mod_divide in Hdiv, IHm, Hs; try lia.
      apply Z.mod_divide; [lia |]. apply Z.divide_add_r.
      - eapply Z.divide_trans; eassumption.
      - apply Z.divide_mul_l. eapply Z.divide_trans; eassumption. }
    split; [| exact Hm].
    cbn [Offset_spec]. rewrite IHo.
    change (payload Ts sizes i + size_at Ts i * count_at sizes i)
      with (payload Ts sizes (S i)).
    now apply Align_spec_fixed.
Qed.

End NoPadding.

(** X13.  The header's efficiency tip: when the alignments of the arrays
    do not grow along the type list, and each element size is a multiple
    of its array's alignment (as it is for every type without an
    override), there is no padding: each computable offset is the sum of
    the sizes of the arrays before it, and [AllocSize()] is the sum of all
    array sizes, as long as these sums are representable in [size_t]. *)
Theorem X13_no_padding Ts sizes L :
  valid_types Ts = true -> valid_counts sizes = true ->
  sizes_aligned Ts = true -> nonincreasing (map AlignOf Ts) = true ->
  Partial Ts sizes = Some L ->
  (forall i, (i < NumOffsets L)%nat -> payload Ts sizes i < modulus ->
             Offset L i = Some (payload Ts sizes i)) /\
  (length sizes = length Ts -> payload Ts sizes (length Ts) < modulus ->
   AllocSize L = Some (payload Ts sizes (length Ts))).
Proof.
  intros Hvalid Hcounts Hsz Hdesc HP. split.
  - intros i Hi Hfit.
    destruct (Offset_spec_payload Ts sizes L Hvalid HP Hsz Hdesc i)
      as [Hspec _].
    rewrite <- Hspec. apply Offset_refines; trivial.
    unfold fits. now rewrite Hspec.
  - intros Hlen Hfit.
    pose proof (built_nonempty Ts sizes L HP) as Hne.
    destruct (Offset_spec_payload Ts sizes L Hvalid HP Hsz Hdesc
                (length Ts - 1)) as [Hspec _].
    assert (Hend : end_spec Ts sizes (length Ts - 1)
                   = payload Ts sizes (length Ts)).
    { unfold end_spec. rewrite Hspec. clear Hspec Hfit Hlen.
      destruct (length Ts) as [| n]; [lia |].
      cbn [Nat.sub payload]. rewrite Nat.sub_0_r. reflexivity. }
    rewrite <- Hend. apply AllocSize_exact_end; trivial.
    now rewrite Hend.
Qed.

Lemma X13_no_padding_witness :
  (forall i, (i < NumOffsets L_tutorial4)%nat ->
             payload Ts_tutorial sizes_tutorial4 i < modulus ->
             Offset L_tutorial4 i
             = Some (payload Ts_tutorial sizes_tutorial4 i))
  /\
  (length sizes_tutorial4 = length Ts_tutorial ->
   payload Ts_tutorial sizes_tutorial4 (length Ts_tutorial) < modulus ->
   AllocSize L_tutorial4
   = Some (payload Ts_tutorial sizes_tutorial4 (length Ts_tutorial))).
Proof.
  apply (X13_no_padding Ts_tutorial sizes_tutorial4 L_tutorial4);
    reflexivity.
Defined.

(** ** [PoisonPadding] *)

Section Poison.

Variables (Ts : list Element) (sizes : list Z) (L : LayoutImpl) (A p : Z).
Hypothesis Hvalid : valid_types Ts = true.
Hypothesis Hcounts : valid_counts sizes = true.
Hypothesis HP : Partial Ts sizes = Some L.
Hypothesis HA : Alignment L = Some A.
Hypothesis Hp : p mod A = 0.
Hypothesis Hfit : fits Ts sizes (NumOffsets L - 1).

Lemma fits_below i : (i < NumOffsets L)%nat -> fits Ts sizes i.
Proof.
  intros Hi. unfold fits in *.
  pose proof (Offset_spec_mono Ts sizes Hvalid Hcounts i (NumOffsets L - 1)).
  lia.
Qed.

Lemma Offset_exact i :
  (i < NumOffsets L)%nat -> Offset L i = Some (Offset_spec Ts sizes i).
Proof.
  intros Hi. apply Offset_refines; trivial. now apply fits_below.
Qed.

Lemma PoisonPadding_calls n :
  (n < NumOffsets L)%nat ->
  exists calls,
    PoisonPadding L n p = Some calls /\
    forall r, In r calls <->
      exists N, (0 < N <= n)%nat /\
                alignment_at Ts (N - 1) mod alignment_at Ts N <> 0 /\
                r = gap_before Ts sizes p N.
Proof.
  induction n as [| n IH]; intros Hn.
  - exists []. split.
    + cbn [PoisonPadding].
      destruct (Pointer_defined Ts sizes L A 0 p Hvalid HP HA Hn Hp)
        as (o & _ & ->). reflexivity.
    + intros r. split; [intros [] | intros (N & HN & _); lia].
  - destruct IH as (calls & Hcalls & Hin); [lia |].
    destruct (Offset_step Ts sizes L HP n Hn)
      as (e & c & e' & He & Hc & He' & _).
    pose proof (Offset_exact n ltac:(lia)) as Ho'.
    pose proof (Offset_exact (S n) Hn) as Ho.
    pose proof (fits_below (S n) Hn) as Hfs. unfold fits in Hfs.
    pose proof (end_spec_le_next Ts sizes Hvalid n) as Hle.
    pose proof (Offset_spec_le_end Ts sizes Hvalid Hcounts n) as Hle'.
    pose proof (Offset_spec_nonneg Ts sizes Hvalid Hcounts n) as H0.
    assert (Hae : alignment_at Ts n = AlignOf e)
      by (unfold alignment_at; now rewrite He).
    assert (Hae' : alignment_at Ts (S n) = AlignOf e')
      by (unfold alignment_at; now rewrite He').
    pose proof (alignment_at_pos Ts Hvalid (S n)) as Hpos.
    assert (Hstart : add (Offset_spec Ts sizes n) (mul (SizeOf e) c)
                     = end_spec Ts sizes n).
    { unfold end_spec in *. unfold size_at, count_at in *.
      rewrite He, Hc in *.
      pose proof (size_at_nonneg Ts Hvalid n) as Hs.
      pose proof (count_at_nonneg sizes Hcounts n) as Hcn.
      unfold size_at in Hs. unfold count_at in Hcn. rewrite He in Hs.
      rewrite Hc in Hcn. assert (0 <= SizeOf e * c) by nia.
      unfold add, mul.
      rewrite (wrap_small (SizeOf e * c)) by (unfold in_range; lia).
      apply wrap_small. unfold in_range. lia. }
    assert (Hlen : sub (Offset_spec Ts sizes (S n)) (end_spec Ts sizes n)
                   = Offset_spec Ts sizes (S n) - end_spec Ts sizes n).
    { unfold sub. apply wrap_small. unfold in_range. lia. }
    assert (Hstep : PoisonPadding L (S n) p =
              if negb (AlignOf e mod AlignOf e' =? 0)
              then Some (calls ++ [gap_before Ts sizes p (S n)])
              else Some calls).
    { cbn [PoisonPadding]. apply Nat.ltb_lt in Hn. rewrite Hn, Hcalls.
      unfold ElementAlignment, ElementType.
      rewrite (built_Elements Ts sizes L HP),
        (built_size_nth Ts sizes L HP _ _ Hc).
      rewrite He, He', Ho', Ho. cbn [option_map].
      rewrite SizeOf_Type, mul_wrap_r, Hstart, Hlen.
      destruct (Z.eqb_spec (AlignOf e') 0) as [E | _]; [lia |].
      unfold gap_before. cbn [Nat.sub]. rewrite Nat.sub_0_r. reflexivity. }
    rewrite Hstep.
    destruct (Z.eqb_spec (AlignOf e mod AlignOf e') 0) as [E | E];
      cbn [negb].
    + exists calls. split; [reflexivity |]. intros r. rewrite Hin. split.
      * intros (N & HN & Hcond & ->). exists N. repeat split; trivial; lia.
      * intros (N & HN & Hcond & ->).
        destruct (Nat.eq_dec N (S n)) as [-> | Hne].
        -- exfalso. apply Hcond. cbn [Nat.sub]. rewrite Nat.sub_0_r.
           now rewrite Hae, Hae'.
        -- exists N. repeat split; trivial; lia.
    + exists (calls ++ [gap_before Ts sizes p (S n)]). split; [reflexivity |].
      intros r. rewrite in_app_iff, Hin. split.
      * intros [(N & HN & Hcond & ->) | [<- | []]].
        -- exists N. repeat split; trivial; lia.
        -- exists (S n). split; [lia |]. split; [| reflexivity].
           cbn [Nat.sub]. rewrite Nat.sub_0_r. now rewrite Hae, Hae'.
      * intros (N & HN & Hcond & ->).
        destruct (Nat.eq_dec N (S n)) as [-> | Hne].
        -- right. now left.
        -- left. exists N. repeat split; trivial; lia.
Qed.

End Poison.

(** X14.  In a build with the address sanitizer, on a valid descriptor
    whose exact layout is representable and a buffer aligned to
    [Alignment()], [PoisonPadding(p)] succeeds, and every region it poisons
    is padding: it starts where some array [N - 1] ends, stops where array
    [N] starts, is shorter than [alignment(N)], and contains no byte of any
    array. *)
Theorem X14_poison_is_padding Ts sizes L A p :
  valid_types Ts = true -> valid_counts sizes = true ->
  Partial Ts sizes = Some L -> Alignment L = Some A -> p mod A = 0 ->
  fits Ts sizes (NumOffsets L - 1) ->
  exists calls,
    PoisonPadding_all L p = Some calls /\
    forall a len, In (a, len) calls ->
      (exists N o' o,
          (0 < N < NumOffsets L)%nat /\
          Offset L (N - 1) = Some o' /\ Offset L N = Some o /\
          a = p + (o' + size_at Ts (N - 1) * count_at sizes (N - 1)) /\
          a + len = p + o /\ 0 <= len < alignment_at Ts N) /\
      (forall i b, in_array Ts sizes L i (b - p) -> ~ (a <= b < a + len)).
Proof.
  intros Hvalid Hcounts HP HA Hp Hfit.
  pose proof (built_NumOffsets_pos Ts sizes L HP) as Hpos.
  destruct (PoisonPadding_calls Ts sizes L A p Hvalid Hcounts HP HA Hp Hfit
              (NumOffsets L - 1)) as (calls & Hcalls & Hin); [lia |].
  exists calls. split; [exact Hcalls |].
  intros a len Hr. apply Hin in Hr. destruct Hr as (N & HN & _ & Hr).
  unfold gap_before in Hr. injection Hr as -> ->.
  destruct N as [| n]; [lia |]. cbn [Nat.sub]. rewrite Nat.sub_0_r.
  pose proof (end_spec_le_next Ts sizes Hvalid n) as Hle.
  pose proof (alignment_at_pos Ts Hvalid (S n)) as Ha.
  pose proof (Align_spec_bounds (end_spec Ts sizes n)
                (alignment_at Ts (S n)) Ha) as Hb.
  change (Align_spec (end_spec Ts sizes n) (alignment_at Ts (S n)))
    with (Offset_spec Ts sizes (S n)) in Hb.
  split.
  - exists (S n), (Offset_spec Ts sizes n), (Offset_spec Ts sizes (S n)).
    cbn [Nat.sub]. rewrite Nat.sub_0_r.
    split; [lia |].
    split; [apply (Offset_exact Ts sizes L Hvalid Hcounts HP Hfit); lia |].
    split; [apply (Offset_exact Ts sizes L Hvalid Hcounts HP Hfit); lia |].
    unfold end_spec in *. repeat split; lia.
  - intros i b (o & Ho & Hbi) Hb'.
    destruct (Nat.ltb_spec i (NumOffsets L)) as [Hi | Hi].
    2:{ rewrite (Offset_rejected Ts sizes L HP i Hi) in Ho. discriminate. }
    rewrite (Offset_exact Ts sizes L Hvalid Hcounts HP Hfit i Hi) in Ho.
    injection Ho as <-.
    destruct (Nat.le_gt_cases i n) as [Hin' | Hin'].
    + pose proof (end_spec_mono Ts sizes Hvalid Hcounts i n Hin').
      unfold end_spec in *. lia.
    + pose proof (Offset_spec_mono Ts sizes Hvalid Hcounts (S n) i Hin').
      lia.
Qed.

Lemma X14_poison_is_padding_witness :
  exists calls,
    PoisonPadding_all L_auto 64 = Some calls /\
    forall a len, In (a, len) calls ->
      (exists N o' o,
          (0 < N < NumOffsets L_auto)%nat /\
          Offset L_auto (N - 1) = Some o' /\ Offset L_auto N = Some o /\
          a = 64 + (o' + size_at Ts_auto (N - 1)
                         * count_at sizes_auto (N - 1)) /\
          a + len = 64 + o /\ 0 <= len < alignment_at Ts_auto N) /\
      (forall i b, in_array Ts_auto sizes_auto L_auto i (b - 64) ->
                   ~ (a <= b < a + len)).
Proof.
  apply (X14_poison_is_padding Ts_auto sizes_auto L_auto 8 64).
  - reflexivity.
  - reflexivity.
  - reflexivity.
  - reflexivity.
  - reflexivity.
  - vm_compute. reflexivity.
Defined.

(** X15.  If moreover each element size is a multiple of the alignment of
    its array (as for every type without an override), the test that
    skips a gap is only an optimisation, as its comment says: every
    non-empty gap between two consecutive arrays is poisoned. *)
Theorem X15_poison_complete Ts sizes L A p :
  valid_types Ts = true -> valid_counts sizes = true ->
  sizes_aligned Ts = true ->
  Partial Ts sizes = Some L -> Alignment L = Some A -> p mod A = 0 ->
  fits Ts sizes (NumOffsets L - 1) ->
  exists calls,
    PoisonPadding_all L p = Some calls /\
    forall N o' o,
      (0 < N < NumOffsets L)%nat ->
      Offset L (N - 1) = Some o' -> Offset L N = Some o ->
      o' + size_at Ts (N - 1) * count_at sizes (N - 1) < o ->
      In (p + (o' + size_at Ts (N - 1) * count_at sizes (N - 1)),
          o - (o' + size_at Ts (N - 1) * count_at sizes (N - 1))) calls.
Proof.
  intros Hvalid Hcounts Hsz HP HA Hp Hfit.
  pose proof (built_NumOffsets_pos Ts sizes L HP) as Hpos.
  destruct (PoisonPadding_calls Ts sizes L A p Hvalid Hcounts HP HA Hp Hfit
              (NumOffsets L - 1)) as (calls & Hcalls & Hin); [lia |].
  exists calls. split; [exact Hcalls |].
  intros N o' o HN Ho' Ho Hgap. apply Hin. exists N.
  destruct N as [| n]; [lia |]. cbn [Nat.sub] in *. rewrite Nat.sub_0_r in *.
  pose proof Ho' as Ho'c.
  rewrite (Offset_exact Ts sizes L Hvalid Hcounts HP Hfit n) in Ho' by lia.
  rewrite (Offset_exact Ts sizes L Hvalid Hcounts HP Hfit (S n)) in Ho by lia.
  injection Ho' as <-. injection Ho as <-.
  split; [lia |]. split.
  - intros Hdiv.
    pose proof (alignment_at_pos Ts Hvalid n) as Han.
    pose proof (alignment_at_pos Ts Hvalid (S n)) as Has.
    assert (Ho0 : Offset_spec Ts sizes n mod alignment_at Ts n = 0).
    { unfold alignment_at. destruct (nth_error Ts n) as [e |] eqn:He.
      - exact (Offset_multiple Ts sizes L HP Hvalid n _ e Ho'c He).
      - apply Z.mod_1_r. }
    assert (Hs0 : size_at Ts n mod alignment_at Ts n = 0).
    { unfold size_at, alignment_at.
      destruct (nth_error Ts n) as [e |] eqn:He; [| reflexivity].
      unfold sizes_aligned in Hsz. rewrite forallb_forall in Hsz.
      apply Z.eqb_eq, Hsz. eapply nth_error_In, He. }
    assert (Hend : (Offset_spec Ts sizes n + size_at Ts n * count_at sizes n)
                     mod alignment_at Ts (S n) = 0).
    { apply Z.mod_divide in Hdiv, Ho0, Hs0; try lia.
      apply Z.mod_divide; [lia |]. apply Z.divide_add_r.
      - eapply Z.divide_trans; eassumption.
      - apply Z.divide_mul_l. eapply Z.divide_trans; eassumption. }
    apply (Align_spec_fixed _ _ Has) in Hend.
    cbn [Offset_spec] in Hgap. lia.
  - unfold gap_before, end_spec. cbn [Nat.sub]. rewrite Nat.sub_0_r.
    reflexivity.
Qed.

Lemma X15_poison_complete_witness :
  exists calls,
    PoisonPadding_all L_auto 64 = Some calls /\
    forall N o' o,
      (0 < N < NumOffsets L_auto)%nat ->
      Offset L_auto (N - 1) = Some o' -> Offset L_auto N = Some o ->
      o' + size_at Ts_auto (N - 1) * count_at sizes_auto (N - 1) < o ->
      In (64 + (o' + size_at Ts_auto (N - 1) * count_at sizes_auto (N - 1)),
          o - (o' + size_at Ts_auto (N - 1) * count_at sizes_auto (N - 1)))
         calls.
Proof.
  apply (X15_poison_complete Ts_auto sizes_auto L_auto 8 64).
  - reflexivity.
  - reflexivity.
  - reflexivity.
  - reflexivity.
  - reflexivity.
  - reflexivity.
  - vm_compute. reflexivity.
Defined.

(** Without that condition a real gap can be skipped: behind three
    [Aligned<char, 8>] elements the [int] array starts at offset [4], and
    the byte at offset [3] is not poisoned, because [8 % 4 == 0]. *)
Remark PoisonPadding_skips_after_override :
  let L := mkLayoutImpl [Aligned c_char 8; Plain c_int] 2 2 [3; 1] in
  Layout [Aligned c_char 8; Plain c_int] [3; 1] = Some L /\
  Offset L 1 = Some 4 /\ PoisonPadding_all L 64 = Some [].
Proof. cbv zeta. repeat split; reflexivity. Qed.

(** ** The self-describing record of [test_serialize.cpp] *)

Lemma Z_of_byte_of_Z z :
  Serialize.Z_of_byte (Serialize.byte_of_Z z) = z mod 256.
Proof.
  unfold Serialize.Z_of_byte, Serialize.byte_of_Z.
  pose proof (Z.mod_pos_bound z 256 ltac:(lia)) as Hb.
  destruct (Byte.of_N (Z.to_N (z mod 256))) as [b |] eqn:E.
  - apply Byte.to_of_N in E. rewrite E. apply Z2N.id. lia.
  - apply Byte.of_N_None_iff in E. lia.
Qed.

Lemma decode_encode_le n x :
  Serialize.decode_le (Serialize.encode_le n x) = x mod 256 ^ Z.of_nat n.
Proof.
  revert x. induction n as [| n IH]; intros x.
  - cbn. now rewrite Z.mod_1_r.
  - cbn [Serialize.encode_le Serialize.decode_le].
    rewrite Z_of_byte_of_Z, IH, Nat2Z.inj_succ, Z.pow_succ_r by lia.
    symmetry. apply Z.rem_mul_r; [lia |]. apply Z.pow_pos_nonneg; lia.
Qed.

Lemma length_encode_le n x : length (Serialize.encode_le n x) = n.
Proof.
  revert x. induction n as [| n IH]; intros x; cbn; [| rewrite IH];
    reflexivity.
Qed.

Lemma decode_encode_size_t x :
  in_range x ->
  Serialize.decode_le (Serialize.encode_le 8 x) = x.
Proof.
  intros Hx. rewrite decode_encode_le. apply Z.mod_small.
  unfold in_range in Hx. rewrite modulus_val in Hx.
  change (256 ^ Z.of_nat 8) with 18446744073709551616. exact Hx.
Qed.

Lemma store_bytes_outside m a bs x :
  x < a \/ a + Z.of_nat (length bs) <= x ->
  Serialize.store_bytes m a bs x = m x.
Proof.
  intros H. unfold Serialize.store_bytes.
  destruct (Z.leb_spec a x); destruct (Z.ltb_spec x (a + Z.of_nat (length bs)));
    cbn; trivial; lia.
Qed.

Lemma load_store_disjoint m a bs a' n :
  a' + Z.of_nat n <= a \/ a + Z.of_nat (length bs) <= a' ->
  Serialize.load_bytes (Serialize.store_bytes m a bs) a' n
  = Serialize.load_bytes m a' n.
Proof.
  intros H. unfold Serialize.load_bytes. apply map_ext_in.
  intros i Hi. apply in_seq in Hi. apply store_bytes_outside. lia.
Qed.

Lemma load_store_inside m a bs k n :
  (k + n <= length bs)%nat ->
  Serialize.load_bytes (Serialize.store_bytes m a bs) (a + Z.of_nat k) n
  = firstn n (skipn k bs).
Proof.
  intros Hk. unfold Serialize.load_bytes.
  apply (nth_ext _ _ Byte.x00 Byte.x00).
  - rewrite length_map, length_seq, length_firstn, length_skipn. lia.
  - rewrite length_map, length_seq. intros i Hi.
    rewrite (nth_indep _ Byte.x00
               (Serialize.store_bytes m a bs (a + Z.of_nat k + Z.of_nat 0)))
      by (rewrite length_map, length_seq; exact Hi).
    rewrite (map_nth (fun j => Serialize.store_bytes m a bs
                                 (a + Z.of_nat k + Z.of_nat j))).
    rewrite seq_nth by exact Hi. cbn [Nat.add].
    rewrite nth_firstn. apply Nat.ltb_lt in Hi. rewrite Hi.
    apply Nat.ltb_lt in Hi. rewrite nth_skipn.
    unfold Serialize.store_bytes.
    destruct (Z.leb_spec a (a + Z.of_nat k + Z.of_nat i)); [| lia].
    destruct (Z.ltb_spec (a + Z.of_nat k + Z.of_nat i)
                (a + Z.of_nat (length bs))); [| lia].
    cbn [andb]. f_equal. lia.
Qed.

Lemma load_store_same m a bs :
  Serialize.load_bytes (Serialize.store_bytes m a bs) a (length bs) = bs.
Proof.
  replace a with (a + Z.of_nat 0) at 2 by (cbn; lia).
  rewrite load_store_inside by (cbn; lia).
  cbn [skipn]. apply firstn_all.
Qed.

Lemma Pointer_at L N p A o :
  Alignment L = Some A -> Offset L N = Some o -> A <> 0 -> p mod A = 0 ->
  Pointer L N p = Some (p + o).
Proof.
  intros HA Ho HA0 Hp. unfold Pointer. rewrite HA, Ho, Hp, Z.eqb_refl.
  destruct (Z.eqb_spec A 0); [contradiction | reflexivity].
Qed.

Section SerializeRoundTrip.

Variables (m : Serialize.Mem) (p n nd : Z).
Variables (floats doubles : list Byte.byte).
Hypothesis Hn : in_range n.
Hypothesis Hnd : in_range nd.
Hypothesis Hfl : length floats = Z.to_nat (4 * n).
Hypothesis Hdl : length doubles = Z.to_nat (8 * nd).
Hypothesis Hp : p mod 8 = 0.
Hypothesis Hroom : 16 + 4 * n + 7 + 8 * nd < modulus.

Let layout : LayoutImpl := mkLayoutImpl Serialize.L 4 4 [1; 1; n; nd].
Let o3 : Z := Align_spec (16 + 4 * n) 8.

Lemma ser_Layout : Layout Serialize.L [1; 1; n; nd] = Some layout.
Proof.
  change (Layout Serialize.L [1; 1; n; nd])
    with (Some (mkLayoutImpl Serialize.L 4 4 [1; 1; wrap n; wrap nd])).
  now rewrite !wrap_small by assumption.
Qed.

Lemma ser_o3_bounds : 16 + 4 * n <= o3 < 16 + 4 * n + 8.
Proof. apply Align_spec_bounds. lia. Qed.

Lemma ser_mul4 : mul 4 n = 4 * n.
Proof.
  unfold mul. apply wrap_small. unfold in_range in *. lia.
Qed.

Lemma ser_mul8 : mul 8 nd = 8 * nd.
Proof.
  unfold mul. apply wrap_small. unfold in_range in *. lia.
Qed.

Lemma ser_Offset2 : Offset layout 2 = Some 16.
Proof. reflexivity. Qed.

Lemma ser_Offset3 : Offset layout 3 = Some o3.
Proof.
  change (Offset layout 3) with (Some (Align (add 16 (mul 4 n)) 8)).
  f_equal. rewrite ser_mul4. unfold add.
  rewrite wrap_small by (unfold in_range in *; lia).
  change 8 with (2 ^ 3) at 1. rewrite Align_exact.
  - reflexivity.
  - unfold in_range in *. lia.
  - lia.
  - change (2 ^ 3) with 8. unfold in_range in *. lia.
Qed.

Lemma ser_AllocSize : AllocSize layout = Some (o3 + 8 * nd).
Proof.
  pose proof ser_o3_bounds as Hb.
  change (AllocSize layout)
    with (match Offset layout 3 with
          | Some o => Some (add o (mul 8 nd))
          | None => None
          end).
  rewrite ser_Offset3, ser_mul8. f_equal.
  unfold add. apply wrap_small. unfold in_range in *. lia.
Qed.

Lemma ser_Pointer k o :
  Offset layout k = Some o -> Pointer layout k p = Some (p + o).
Proof.
  intros Ho. apply (Pointer_at layout k p 8 o); trivial. lia.
Qed.

(** The memory that [create] leaves. *)
Let m' : Serialize.Mem :=
  Serialize.store_bytes
    (Serialize.store_bytes
       (Serialize.store_bytes
          (Serialize.store_bytes m (p + 0) (Serialize.encode_le 8 n))
          (p + 8) (Serialize.encode_le 8 nd))
       (p + 16) floats)
    (p + o3) doubles.

Lemma ser_create :
  Serialize.create m p floats n doubles nd = Some m'.
Proof.
  unfold Serialize.create. rewrite ser_Layout.
  change (Alignment layout) with (Some 8). rewrite ser_AllocSize.
  rewrite (ser_Pointer 0 0 eq_refl), (ser_Pointer 1 8 eq_refl).
  change (Pointer_of_type layout c_float p) with (Pointer layout 2 p).
  change (Pointer_of_type layout c_double p) with (Pointer layout 3 p).
  rewrite (ser_Pointer 2 16 ser_Offset2), (ser_Pointer 3 o3 ser_Offset3).
  cbv zeta. unfold Serialize.memcpy, Serialize.store_size_t.
  change (ty_sizeof c_float) with 4. change (ty_sizeof c_double) with 8.
  rewrite ser_mul4, ser_mul8, <- Hfl, <- Hdl, !firstn_all. reflexivity.
Qed.

Lemma ser_lengths :
  Z.of_nat (length floats) = 4 * n /\ Z.of_nat (length doubles) = 8 * nd.
Proof.
  unfold in_range in *. rewrite Hfl, Hdl, !Z2Nat.id by lia. split; reflexivity.
Qed.

Lemma ser_outside x : x < p \/ p + (o3 + 8 * nd) <= x -> m' x = m x.
Proof.
  intros Hx. pose proof ser_o3_bounds as Hb.
  destruct ser_lengths as [Hf Hd]. unfold in_range in *. unfold m'.
  rewrite !store_bytes_outside; trivial;
    rewrite ?length_encode_le; lia.
Qed.

Lemma ser_load_num_floats : Serialize.load_size_t m' (p + 0) = n.
Proof.
  pose proof ser_o3_bounds as Hb. destruct ser_lengths as [Hf Hd].
  unfold in_range in *. unfold Serialize.load_size_t, m'.
  rewrite !load_store_disjoint by (rewrite ?length_encode_le; lia).
  rewrite <- (length_encode_le 8 n) at 2. rewrite load_store_same.
  now apply decode_encode_size_t.
Qed.

Lemma ser_load_num_doubles : Serialize.load_size_t m' (p + 8) = nd.
Proof.
  pose proof ser_o3_bounds as Hb. destruct ser_lengths as [Hf Hd].
  unfold in_range in *. unfold Serialize.load_size_t, m'.
  rewrite !load_store_disjoint by (rewrite ?length_encode_le; lia).
  rewrite <- (length_encode_le 8 nd) at 2. rewrite load_store_same.
  now apply decode_encode_size_t.
Qed.

Lemma ser_load_float i :
  (i < Z.to_nat n)%nat ->
  Serialize.load_bytes m' (p + 16 + 4 * Z.of_nat i) (Z.to_nat 4)
  = Serialize.element 4 floats i.
Proof.
  intros Hi. pose proof ser_o3_bounds as Hb.
  destruct ser_lengths as [Hf Hd]. unfold in_range in *. unfold m'.
  rewrite load_store_disjoint by lia.
  replace (p + 16 + 4 * Z.of_nat i)
    with (p + 16 + Z.of_nat (Z.to_nat 4 * i)) by lia.
  apply load_store_inside. lia.
Qed.

Lemma ser_load_double i :
  (i < Z.to_nat nd)%nat ->
  Serialize.load_bytes m' (p + o3 + 8 * Z.of_nat i) (Z.to_nat 8)
  = Serialize.element 8 doubles i.
Proof.
  intros Hi. destruct ser_lengths as [Hf Hd]. unfold in_range in *.
  unfold m'.
  replace (p + o3 + 8 * Z.of_nat i)
    with (p + o3 + Z.of_nat (Z.to_nat 8 * i)) by lia.
  apply load_store_inside. lia.
Qed.

Lemma ser_use :
  Serialize.use m' p
  = Some (Serialize.elements 4 floats n, Serialize.elements 8 doubles nd).
Proof.
  unfold Serialize.use.
  change (Partial Serialize.L [1; 1])
    with (Some (mkLayoutImpl Serialize.L 2 3 [1; 1])).
  cbv beta iota.
  rewrite (Pointer_at _ 0 p 8 0), (Pointer_at _ 1 p 8 8);
    try reflexivity; try lia; try exact Hp.
  cbv zeta. rewrite ser_load_num_floats, ser_load_num_doubles, ser_Layout.
  rewrite (ser_Pointer 2 16 ser_Offset2), (ser_Pointer 3 o3 ser_Offset3).
  change (ty_sizeof c_float) with 4. change (ty_sizeof c_double) with 8.
  unfold Serialize.elements. f_equal. f_equal.
  - apply map_ext_in. intros i Hi. apply in_seq in Hi.
    apply ser_load_float. lia.
  - apply map_ext_in. intros i Hi. apply in_seq in Hi.
    apply ser_load_double. lia.
Qed.

(** X16.  The self-describing record round-trips.  For arrays of [n]
    floats and [nd] doubles whose block fits in [size_t], written by
    [create] into a block aligned to [Alignment() = 8]: [create] succeeds
    and writes only inside the [AllocSize()] bytes of the block; and
    [use], which knows nothing but the block, reads [n] and [nd] back
    through [Partial(1, 1)], builds the full layout and reads exactly the
    floats and doubles that were written, in order. *)
Theorem X16_serialize_round_trip :
  exists mem A,
    Serialize.create m p floats n doubles nd = Some mem /\
    AllocSize (mkLayoutImpl Serialize.L 4 4 [1; 1; n; nd]) = Some A /\
    16 + 4 * n + 8 * nd <= A /\
    (forall x, x < p \/ p + A <= x -> mem x = m x) /\
    Serialize.use mem p
    = Some (Serialize.elements 4 floats n, Serialize.elements 8 doubles nd).
Proof.
  exists m', (o3 + 8 * nd). pose proof ser_o3_bounds as Hb.
  split; [exact ser_create |]. split; [exact ser_AllocSize |].
  split; [lia |]. split; [exact ser_outside | exact ser_use].
Qed.

End SerializeRoundTrip.

Lemma X16_serialize_round_trip_witness :
  exists mem A,
    Serialize.create Serialize.zero_memory 4096
      Serialize.main_floats 3 Serialize.main_doubles 4 = Some mem /\
    AllocSize (mkLayoutImpl Serialize.L 4 4 [1; 1; 3; 4]) = Some A /\
    16 + 4 * 3 + 8 * 4 <= A /\
    (forall x, x < 4096 \/ 4096 + A <= x ->
               mem x = Serialize.zero_memory x) /\
    Serialize.use mem 4096
    = Some (Serialize.elements 4 Serialize.main_floats 3,
            Serialize.elements 8 Serialize.main_doubles 4).
Proof.
  apply (X16_serialize_round_trip Serialize.zero_memory 4096 3 4
           Serialize.main_floats Serialize.main_doubles).
  - in_range_tac.
  - in_range_tac.
  - reflexivity.
  - reflexivity.
  - reflexivity.
  - rewrite modulus_val. lia.
Defined.

(** ** The check of an override *)

(** X17.  For a legal element type [T] and an override [A] other than
    zero, [Aligned<T, A>] gets through [AlignOf]'s assertion and
    [IsLegalElementType] exactly when [A] is a power of two and at least
    [alignof(T)]. *)
Theorem X17_override_check T A :
  wf_CType T = true -> is_pow2 (ty_alignof T) ->
  ty_is_reference T = false -> ty_is_volatile T = false ->
  in_range A -> A <> 0 ->
  (element_accepted (Aligned T A) = true <-> valid_override T A).
Proof.
  intros Hwf Hnat Hr Hv HA Hnz. split.
  - intros Hacc. unfold valid_override.
    destruct (Z_lt_ge_dec A (ty_alignof T)) as [Hlt | Hge].
    + rewrite (override_rejected T A Hwf HA Hnz (or_intror Hlt)) in Hacc.
      discriminate.
    + split; [| lia]. apply IsPow2_inv; trivial.
      now apply (element_accepted_IsPow2 (Aligned T A)).
  - now apply override_accepted.
Qed.

Lemma X17_override_check_witness :
  element_accepted (Aligned c_int 32) = true <-> valid_override c_int 32.
Proof.
  apply (X17_override_check c_int 32).
  - reflexivity.
  - exists 2. split; [unfold bits; lia | reflexivity].
  - reflexivity.
  - reflexivity.
  - in_range_tac.
  - lia.
Defined.

(** ** The alignment of the buffer *)

(** X18.  [Alignment()] is the largest alignment among the [N] element
    types, where the alignment of an array is [alignof(T)] for a plain
    element type and the override [A] for [Aligned<T, A>]; it depends on
    the type list only, not on how many counts are known.  When no
    alignment is zero it is a power of two, and a buffer aligned to it is
    aligned for the first array, which [Pointer<0>(p)] places at [p]. *)
Theorem X18_Alignment_is_max Ts sizes L :
  Partial Ts sizes = Some L ->
  exists A,
    Alignment L = Some A /\
    (forall e, In e Ts ->
       match e with Plain T => ty_alignof T | Aligned _ a => a end <= A) /\
    (exists e, In e Ts /\
       match e with Plain T => ty_alignof T | Aligned _ a => a end = A) /\
    (forall sizes' L', Partial Ts sizes' = Some L' -> Alignment L' = Some A) /\
    (valid_types Ts = true ->
     is_pow2 A /\
     forall e0 p,
       nth_error Ts 0 = Some e0 -> p mod A = 0 ->
       Pointer L 0 p = Some p /\
       p mod match e0 with Plain T => ty_alignof T | Aligned _ a => a end
       = 0).
Proof.
  intros HP. pose proof (built_nonempty Ts sizes L HP) as Hne.
  pose proof (built_Elements Ts sizes L HP) as HE.
  destruct Ts as [| t Ts']; [cbn in Hne; lia |].
  exists (Max (AlignOf t) (map AlignOf Ts')).
  assert (HA : forall L', Elements L' = t :: Ts' ->
            Alignment L' = Some (Max (AlignOf t) (map AlignOf Ts'))).
  { intros L' HL'. unfold Alignment. now rewrite HL'. }
  assert (Hmax : exists e, In e (t :: Ts') /\
                           AlignOf e = Max (AlignOf t) (map AlignOf Ts')).
  { pose proof (Max_In (AlignOf t) (map AlignOf Ts')) as Hin.
    change (AlignOf t :: map AlignOf Ts') with (map AlignOf (t :: Ts')) in Hin.
    apply in_map_iff in Hin. destruct Hin as (e & He & Hin). eauto. }
  assert (Hup : forall e, In e (t :: Ts') ->
                          AlignOf e <= Max (AlignOf t) (map AlignOf Ts')).
  { intros e He. apply Max_upper.
    change (AlignOf t :: map AlignOf Ts') with (map AlignOf (t :: Ts')).
    now apply in_map. }
  split; [now apply HA |]. split; [exact Hup |]. split; [exact Hmax |].
  split.
  - intros sizes' L' HP'. apply HA. exact (built_Elements _ _ _ HP').
  - intros Hvalid.
    destruct Hmax as (em & Hem & HAm).
    destruct (In_nth_error _ _ Hem) as [n Hn].
    pose proof (built_is_pow2 _ sizes L HP Hvalid n em Hn) as Hpm.
    pose proof (built_is_pow2 _ sizes L HP Hvalid O t eq_refl) as Hpt.
    rewrite HAm in Hpm. pose proof (is_pow2_pos _ Hpm) as HApos.
    split; [exact Hpm |].
    intros e0 p He0 Hp. cbn in He0. injection He0 as <-.
    change (match t with Plain T => ty_alignof T | Aligned _ a => a end)
      with (AlignOf t).
    split.
    + unfold Pointer. rewrite (HA L HE). cbn [Offset].
      rewrite Hp, Z.eqb_refl.
      destruct (Z.eqb_spec (Max (AlignOf t) (map AlignOf Ts')) 0); [lia |].
      cbn. now rewrite Z.add_0_r.
    + pose proof (is_pow2_divides _ _ Hpt Hpm (Hup t (or_introl eq_refl)))
        as Hdiv.
      pose proof (is_pow2_pos _ Hpt) as Htpos.
      apply Z.mod_divide in Hdiv; [| lia].
      apply Z.mod_divide in Hp; [| lia].
      apply Z.mod_divide; [lia |].
      eapply Z.divide_trans; eassumption.
Qed.

Lemma X18_Alignment_is_max_witness :
  exists A,
    Alignment L_custom = Some A /\
    (forall e, In e Ts_custom ->
       match e with Plain T => ty_alignof T | Aligned _ a => a end <= A) /\
    (exists e, In e Ts_custom /\
       match e with Plain T => ty_alignof T | Aligned _ a => a end = A) /\
    (forall sizes' L',
        Partial Ts_custom sizes' = Some L' -> Alignment L' = Some A) /\
    (valid_types Ts_custom = true ->
     is_pow2 A /\
     forall e0 p,
       nth_error Ts_custom 0 = Some e0 -> p mod A = 0 ->
       Pointer L_custom 0 p = Some p /\
       p mod match e0 with Plain T => ty_alignof T | Aligned _ a => a end
       = 0).
Proof.
  apply (X18_Alignment_is_max Ts_custom sizes_auto L_custom). reflexivity.
Defined.
